(** * Verification of [lib/cmcut.py] (cmcut_from_wav)

    Shallow embedding of the commercial-cutting library.  Seconds and
    loudness samples are modelled as rationals [Q]; Python [int] frame
    indices as [Z].  Exceptions are the variants of [error]; the only
    mutable object that is shared between calls, the caller's
    [DurationSecUnits.durations_sec] list, is the state of a small
    state-and-error monad. *)

From Stdlib Require Import QArith Qminmax String List Bool ZArith Lia Sorting.Sorted.
Import ListNotations.
Open Scope Q_scope.

(** ** Exceptions and the state/error monad *)

Inductive error := TypeError | ValueError | IndexError | KeyError.

Inductive res (A : Type) := Ok (a : A) | Err (e : error).
Arguments Ok {A} a.
Arguments Err {A} e.

Definition rbind {A B} (m : res A) (k : A -> res B) : res B :=
  match m with Ok a => k a | Err e => Err e end.

Notation "x <- m ;; k" := (rbind m (fun x => k))
  (at level 61, m at next level, right associativity).

(** The store: contents of the caller's [DurationSecUnits.durations_sec]
    list, which Python passes around by reference. *)
Definition store := list Q.

(** Stateful computations keep the store updates made before an
    exception, as Python does. *)
Definition M (A : Type) := store -> res A * store.

Definition mret {A} (a : A) : M A := fun s => (Ok a, s).
Definition mfail {A} (e : error) : M A := fun s => (Err e, s).
Definition mlift {A} (r : res A) : M A := fun s => (r, s).
Definition mbind {A B} (m : M A) (k : A -> M B) : M B :=
  fun s => match m s with
           | (Ok a, s') => k a s'
           | (Err e, s') => (Err e, s')
           end.

Notation "x <-- m ;;; k" := (mbind m (fun x => k))
  (at level 61, m at next level, right associativity).

(** ** Comparisons as Python evaluates them *)

Definition qle (a b : Q) : bool := Qle_bool a b.
Definition qlt (a b : Q) : bool := negb (Qle_bool b a).
Definition qeq (a b : Q) : bool := Qeq_bool a b.

(** Python's [x in xs] for numbers. *)
Definition q_in (x : Q) (xs : list Q) : bool := existsb (qeq x) xs.

(** Python's [xs[-1]]. *)
Definition last_elem {A} (xs : list A) : res A :=
  match rev xs with a :: _ => Ok a | [] => Err IndexError end.

(** Python's [sorted] on numbers (stable insertion sort). *)
Fixpoint insert_sorted (x : Q) (xs : list Q) : list Q :=
  match xs with
  | [] => [x]
  | y :: ys => if qlt x y then x :: y :: ys else y :: insert_sorted x ys
  end.

Fixpoint sorted (xs : list Q) : list Q :=
  match xs with [] => [] | x :: xs' => insert_sorted x (sorted xs') end.

(** ** SilentSection *)

Record SilentSection := mkSilent {
  frame_per_sec : Q;
  start_sec : Q;
  end_sec : Q
}.

Definition Z2Q (z : Z) : Q := inject_Z z.

(** [SilentSection.__init__]; the argument types are [int] by typing. *)
Definition SilentSection_init (start_frame_index end_frame_index : Z)
    (fps : Q) : res SilentSection :=
  if (start_frame_index <? 0)%Z then Err ValueError
  else if (end_frame_index <=? 0)%Z then Err ValueError
  else if (end_frame_index <=? start_frame_index)%Z then Err ValueError
  else if qle fps 0 then Err ValueError
  else Ok (mkSilent fps (Z2Q start_frame_index / fps) (Z2Q end_frame_index / fps)).

(** Arguments whose Python type the constructors test: an [int], a
    [float], or a value of any other type ([bool], [str], [None], ...). *)
Inductive pyval := PInt (z : Z) | PFloat (q : Q) | POther.

(** [SilentSection.__init__] with the [type(...) is not int] tests on
    both frame indices, in the order of the source; once both are
    [int]s the remaining checks are those of [SilentSection_init]. *)
Definition SilentSection_new (start_frame_index end_frame_index : pyval) (fps : Q)
    : res SilentSection :=
  match start_frame_index with
  | PInt a =>
      if (a <? 0)%Z then Err ValueError
      else match end_frame_index with
           | PInt b => SilentSection_init a b fps
           | _ => Err TypeError
           end
  | _ => Err TypeError
  end.

Definition duration_sec (s : SilentSection) : Q := end_sec s - start_sec s.

(** ** FrameLoudness *)

Record FrameLoudness := mkLoudness { values : list Q }.

Definition is_float (v : pyval) : bool :=
  match v with PFloat _ => true | _ => false end.

Definition float_value (v : pyval) : Q :=
  match v with PFloat q => q | _ => 0 end.

(** [FrameLoudness.__init__] on a Python [list]: empty, an element
    whose type is not [float] (an [int] sample included), or a negative
    sample all raise [TypeError]; the accepted list is stored as is, here
    as the numbers its [float]s hold. *)
Definition FrameLoudness_init (loudness_values : list pyval) : res FrameLoudness :=
  if (length loudness_values <=? 0)%nat then Err TypeError
  else
    let filtered_values := filter is_float loudness_values in
    if negb (length filtered_values =? length loudness_values)%nat then Err TypeError
    else if (0 <? length (filter (fun x => qlt (float_value x) 0) filtered_values))%nat
    then Err TypeError
    else Ok (mkLoudness (map float_value loudness_values)).

(** The inner test of [is_cm_divider_candidate]:
    [duration_sec_unit < duration_sec <= duration_sec_unit + margin_sec]. *)
Definition in_band (margin unit gap : Q) : bool :=
  qlt unit gap && qle gap (unit + margin).

(** [SilentSection.is_cm_divider_candidate]; [units] is the
    [durations_sec] list of the [DurationSecUnits] argument. *)
Fixpoint is_cm_divider_candidate (self : SilentSection)
    (following : list SilentSection) (units : list Q) (margin : Q) : res bool :=
  match following with
  | [] => Ok false
  | section :: rest =>
      let gap := end_sec section - start_sec self in
      largest <- last_elem units ;;
      if qle (largest + margin) gap then Ok false
      else if existsb (fun u => in_band margin u gap) units then Ok true
      else is_cm_divider_candidate self rest units margin
  end.

(** ** DurationSecUnits *)

Record DurationSecUnits := mkUnits { durations_sec : list Q }.

(** The validation loop of [DurationSecUnits.__init__]: appends the
    values not yet present to [acc]. *)
Fixpoint units_collect (acc : list Q) (vals : list Q) : res (list Q) :=
  match vals with
  | [] => Ok acc
  | v :: vs =>
      if qle v 0 then Err ValueError
      else units_collect (if q_in v acc then acc else acc ++ [v]) vs
  end.

Definition DurationSecUnits_init (vals : list Q) : res DurationSecUnits :=
  match vals with
  | [] => Ok (mkUnits [15; 30])
  | _ => l <- units_collect [15; 30] vals ;; Ok (mkUnits (sorted l))
  end.

(** [append_duration] called on the caller's object (the store):
    [durations = self.durations_sec] aliases the list, so the
    [append] mutates the caller's object before the new object is
    built. *)
Definition append_duration (d : Q) : M DurationSecUnits :=
  fun s => let durations := s ++ [d] in
           (DurationSecUnits_init (sorted durations), durations).

(** Python's [list.remove]: drops the first element equal to [x]. *)
Fixpoint remove_first (x : Q) (xs : list Q) : list Q :=
  match xs with
  | [] => []
  | y :: ys => if qeq y x then ys else y :: remove_first x ys
  end.

(** [remove_duration] called on the caller's object: as in
    [append_duration], [durations] aliases the caller's list, which
    loses the value before the new object is built from it. *)
Definition remove_duration (d : Q) : M DurationSecUnits :=
  fun s => let durations := if q_in d s then remove_first d s else s in
           (DurationSecUnits_init durations, durations).

(** ** NominalCMStructure *)

(** A Python [dict] with string keys, in insertion order. *)
Definition composition := list (string * Q).

Record NominalCMStructure := mkStructure {
  comp : composition;
  nominal_duration : Q;
  margin_sec : Q
}.

Definition has_key (k : string) (c : composition) : bool :=
  existsb (fun kv => String.eqb (fst kv) k) c.

Fixpoint lookup_key (k : string) (c : composition) : option Q :=
  match c with
  | [] => None
  | (k', v) :: c' => if String.eqb k' k then Some v else lookup_key k c'
  end.

(** The key loop of [NominalCMStructure.__init__], summing the values. *)
Fixpoint structure_sum (acc : Q) (c : composition) : res Q :=
  match c with
  | [] => Ok acc
  | (k, v) :: c' =>
      if negb (String.eqb k "cm") && negb (String.eqb k "scene")
         && negb (String.eqb k "monolithic_cm") then Err KeyError
      else if qle v 0 then Err ValueError
      else structure_sum (acc + v) c'
  end.

(** [NominalCMStructure.__init__]; values and margin are numbers by typing. *)
Definition NominalCMStructure_init (c : composition) (margin : Q)
    : res NominalCMStructure :=
  if (2 <? length c)%nat then Err ValueError
  else if (length c =? 1)%nat && has_key "scene" c then Err ValueError
  else if (length c =? 0)%nat then Err ValueError
  else nominal <- structure_sum 0 c ;;
       if qle margin 0 then Err ValueError
       else Ok (mkStructure c nominal margin).

(** The key loop of [get_actual_cm_section]; [None] is Python's implicit
    [return None] when the loop ends. *)
Fixpoint actual_cm_loop (counter : nat) (c : composition) (l r : Q)
    : option (Q * Q) :=
  match c with
  | [] => None
  | (k, v) :: c' =>
      if String.eqb k "scene" then
        if (counter =? 0)%nat then Some (l + v, r) else Some (l, r - v)
      else actual_cm_loop (S counter) c' l r
  end.

Definition get_actual_cm_section (t : NominalCMStructure)
    (last_cm_divider_end_sec next_cm_divider_start_sec : Q) : option (Q * Q) :=
  if (length (comp t) =? 1)%nat
  then Some (last_cm_divider_end_sec, next_cm_divider_start_sec)
  else actual_cm_loop 0 (comp t) last_cm_divider_end_sec next_cm_divider_start_sec.

(** ** extract_silent_sections *)

(** The loop of [extract_silent_sections] over [enumerate(loudness.values)];
    the frame index [idx], [silent_duration] and [start_frame_index] are
    non-negative Python ints, kept as [nat]; [start] stands for
    [start_frame_index], which Python binds on the first zero frame. *)
Fixpoint extract_loop (fps : Q) (thr : Z) (idx : nat) (vals : list Q)
    (acc : list SilentSection) (dur : nat) (last : Q) (start : nat)
    : res (list SilentSection) :=
  match vals with
  | [] => Ok acc
  | x :: xs =>
      if qeq x 0 then
        let start' := if negb (qeq last 0) then idx else start in
        extract_loop fps thr (S idx) xs acc (S dur) x start'
      else if (0 <? dur)%nat then
        if (thr <? Z.of_nat dur)%Z then
          s <- SilentSection_init (Z.of_nat start) (Z.of_nat idx) fps ;;
          extract_loop fps thr (S idx) xs (acc ++ [s]) 0 x start
        else extract_loop fps thr (S idx) xs acc 0 x start
      else extract_loop fps thr (S idx) xs acc 0 x start
  end.

Definition extract_silent_sections (loudness : list Q) (thr : Z) (fps : Q)
    : res (list SilentSection) :=
  extract_loop fps thr 0 loudness [] 0 (-1) 0.

(** ** construct_cm_sections *)

(** The local variables of [construct_cm_sections] that change across
    iterations; [margin_sec] is read once from [cm_structures[0]]. *)
Record scan_state := mkScan {
  cm_divider_candidates : list SilentSection;
  cm_sections : list (option (Q * Q));
  structure_reference : nat;
  target_cm_structure : NominalCMStructure;
  nominal_cm_duration : Q
}.

Definition with_candidates (st : scan_state) (c : list SilentSection) : scan_state :=
  mkScan c (cm_sections st) (structure_reference st)
    (target_cm_structure st) (nominal_cm_duration st).

(** [tmp_duration_sec_units]: a deep copy of the caller's object, or the
    result of [duration_sec_units.append_duration(...)] when the target
    structure has a ["monolithic_cm"] component. *)
Definition tmp_units (target : NominalCMStructure) : M DurationSecUnits :=
  if has_key "monolithic_cm" (comp target) then
    match lookup_key "monolithic_cm" (comp target) with
    | Some v => append_duration v
    | None => mfail KeyError
    end
  else fun s => (Ok (mkUnits s), s).

(** [candidates_could_be_cm]: more than [cm_num_threshold] candidates,
    or exactly one when the target has a ["monolithic_cm"] component. *)
Definition candidates_could_be_cm (target : NominalCMStructure)
    (cm_num_threshold : nat) (cands : list SilentSection) : bool :=
  if negb (length (comp target) =? 0)%nat && has_key "monolithic_cm" (comp target)
  then (length cands =? 1)%nat
  else (cm_num_threshold <? length cands)%nat.

(** One iteration of the [for] loop on [section], whose followers are
    [rest]; the boolean result is [true] on [break]. *)
Definition cm_step (cm_structures : list NominalCMStructure) (margin : Q)
    (cm_num_threshold : nat) (section : SilentSection)
    (rest : list SilentSection) (st : scan_state) : M (bool * scan_state) :=
  let target := target_cm_structure st in
  let nominal := nominal_cm_duration st in
  tmp <-- tmp_units target ;;;
  cand <-- mlift (is_cm_divider_candidate section rest (durations_sec tmp) margin) ;;;
  let cands := if cand then cm_divider_candidates st ++ [section]
               else cm_divider_candidates st in
  let could := candidates_could_be_cm target cm_num_threshold cands in
  if could then
    match cands with
    | [] => mfail IndexError
    | c0 :: _ =>
      let combined := end_sec section - start_sec c0 in
      if qle combined nominal then mret (false, with_candidates st cands)
      else
        if qlt nominal combined && qlt combined (nominal + margin) then
          let cm := get_actual_cm_section target (end_sec c0) (start_sec section) in
          let cms := cm_sections st ++ [cm] in
          let ref := S (structure_reference st) in
          if (ref <? length cm_structures)%nat then
            match nth_error cm_structures ref with
            | Some t' =>
                lastc <-- mlift (last_elem cands) ;;;
                mret (false, mkScan [lastc] cms ref t' (nominal_duration t'))
            | None => mfail IndexError
            end
          else mret (true, mkScan cands cms ref target nominal)
        else
          lastc <-- mlift (last_elem cands) ;;;
          mret (false, with_candidates st [lastc])
    end
  else mret (false, with_candidates st cands).

Fixpoint cm_loop (cm_structures : list NominalCMStructure) (margin : Q)
    (cm_num_threshold : nat) (sections : list SilentSection) (st : scan_state)
    : M scan_state :=
  match sections with
  | [] => mret st
  | section :: rest =>
      r <-- cm_step cm_structures margin cm_num_threshold section rest st ;;;
      if fst r then mret (snd r)
      else cm_loop cm_structures margin cm_num_threshold rest (snd r)
  end.

Definition initial_scan (t0 : NominalCMStructure) : scan_state :=
  mkScan [] [] 0 t0 (nominal_duration t0).

(** [ProgramScenes.construct_cm_sections]; the store is the caller's
    [duration_sec_units.durations_sec]. *)
Definition construct_cm_sections (silent_sections : list SilentSection)
    (cm_structures : list NominalCMStructure) (has_monolithic_cm : bool)
    : M (list (option (Q * Q))) :=
  match cm_structures with
  | [] => mret []
  | t0 :: _ =>
      let cm_num_threshold := if has_monolithic_cm then 0%nat else 1%nat in
      st <-- cm_loop cm_structures (margin_sec t0) cm_num_threshold
               silent_sections (initial_scan t0) ;;;
      mret (cm_sections st)
  end.

(** ** search_cm_sections *)

Fixpoint search_loop (units : list Q) (sections : list SilentSection)
    (cands : list SilentSection) (cms : list (Q * Q)) (continuity : bool)
    : res (list SilentSection * list (Q * Q)) :=
  match sections with
  | [] => Ok (cands, cms)
  | section :: rest =>
      cand <- is_cm_divider_candidate section rest units 1 ;;
      if cand then search_loop units rest (cands ++ [section]) cms true
      else if continuity && (2 <=? length cands)%nat then
        c0 <- (match cands with c :: _ => Ok c | [] => Err IndexError end) ;;
        cl <- last_elem cands ;;
        search_loop units rest [] (cms ++ [(end_sec c0, start_sec cl)]) false
      else search_loop units rest cands cms continuity
  end.

Definition search_cm_sections (sections : list SilentSection) (units : list Q)
    : res (list (Q * Q)) :=
  r <- search_loop units sections [] [] false ;;
  let '(cands, cms) := r in
  if (2 <=? length cands)%nat then
    c0 <- (match cands with c :: _ => Ok c | [] => Err IndexError end) ;;
    cl <- last_elem cands ;;
    Ok (cms ++ [(end_sec c0, start_sec cl)])
  else Ok cms.

(** ** generate_scenes and the pipelines *)

Definition starting_range_sec : Q := 5.
Definition end_margin_sec : Q := 1.

Fixpoint scenes_loop (start : Q) (cms : list (Q * Q)) (last_end : Q)
    (last_scene_duration : Q) : list (Q * Q) :=
  match cms with
  | [] =>
      if negb (qeq last_scene_duration 0)
      then [(start, start + last_scene_duration + end_margin_sec)]
      else [(start, last_end)]
  | section :: cms' =>
      (start, fst section) :: scenes_loop (snd section) cms' last_end last_scene_duration
  end.

(** [ProgramScenes.generate_scenes]. *)
Definition generate_scenes (first_start_sec_candidate last_end_sec_candidate : Q)
    (cms : list (Q * Q)) (last_scene_duration : Q) : list (Q * Q) :=
  let start := if qlt first_start_sec_candidate starting_range_sec
               then first_start_sec_candidate else 0 in
  scenes_loop start cms last_end_sec_candidate last_scene_duration.

(** Python's [xs[0]]. *)
Definition first_elem {A} (xs : list A) : res A :=
  match xs with a :: _ => Ok a | [] => Err IndexError end.

(** Subscripting a [None] commercial interval ([section[0]]) raises. *)
Fixpoint subscriptable (cms : list (option (Q * Q))) : res (list (Q * Q)) :=
  match cms with
  | [] => Ok []
  | None :: _ => Err TypeError
  | Some p :: cms' => r <- subscriptable cms' ;; Ok (p :: r)
  end.

(** [ProgramScenes.construct_program_scenes]; runs on the store holding
    the caller's [duration_sec_units.durations_sec]. *)
Definition construct_program_scenes (loudness : list Q) (duration_frame_threshold : Z)
    (fps : Q) (cm_structures : list NominalCMStructure) (last_scene_duration : Q)
    (has_monolithic_cm : bool) : M (list (Q * Q)) :=
  silent_sections <-- mlift (extract_silent_sections loudness duration_frame_threshold fps) ;;;
  cms <-- construct_cm_sections silent_sections cm_structures has_monolithic_cm ;;;
  first <-- mlift (first_elem silent_sections) ;;;
  lastsec <-- mlift (last_elem silent_sections) ;;;
  cms' <-- mlift (subscriptable cms) ;;;
  mret (generate_scenes (start_sec first) (end_sec lastsec) cms' last_scene_duration).

(** [ProgramScenes.construct_program_scenes_without_structure]; the units
    object is only read. *)
Definition construct_program_scenes_without_structure (loudness : list Q)
    (duration_frame_threshold : Z) (fps : Q) (units : list Q) : res (list (Q * Q)) :=
  silent_sections <- extract_silent_sections loudness duration_frame_threshold fps ;;
  cms <- search_cm_sections silent_sections units ;;
  first <- first_elem silent_sections ;;
  lastsec <- last_elem silent_sections ;;
  Ok (generate_scenes (start_sec first) (end_sec lastsec) cms 0).

(** ** Reference formulations of the specification *)

(** [max(U)] of a non-empty unit list. *)
Fixpoint max_of (U : list Q) : Q :=
  match U with
  | [] => 0
  | [u] => u
  | u :: U' => Qmax u (max_of U')
  end.

(** The forward intervals scanned before the stop condition
    [gap >= max(U) + margin] holds for the first time. *)
Fixpoint scanned_before_stop (s_start bound : Q) (fs : list SilentSection)
    : list SilentSection :=
  match fs with
  | [] => []
  | f :: fs' =>
      if qle bound (end_sec f - s_start) then []
      else f :: scanned_before_stop s_start bound fs'
  end.

(** Divider classification as the specification words it. *)
Definition spec_divider_candidate (s : SilentSection) (fs : list SilentSection)
    (U : list Q) (m : Q) : bool :=
  existsb (fun f => existsb (fun u => in_band m u (end_sec f - start_sec s)) U)
    (scanned_before_stop (start_sec s) (max_of U + m) fs).

(** The coverage invariant on a scene list: every scene is an interval
    ([start <= end]) that ends no later than the next one starts. *)
Fixpoint scenes_well_ordered (sc : list (Q * Q)) : Prop :=
  match sc with
  | [] => True
  | p :: t =>
      fst p <= snd p /\
      match t with [] => True | q :: _ => snd p <= fst q end /\
      scenes_well_ordered t
  end.

(** Scene [k] ends exactly where commercial [k] starts and scene
    [k + 1] starts exactly where it ends; one scene more than
    commercials. *)
Fixpoint commercials_adjacent (sc : list (Q * Q)) (cms : list (Q * Q)) : Prop :=
  match sc, cms with
  | [_], [] => True
  | p :: ((q :: _) as t), c :: cms' =>
      snd p = fst c /\ fst q = snd c /\ commercials_adjacent t cms'
  | _, _ => False
  end.

(** Commercial [k] lies between scene [k] and scene [k + 1]. *)
Fixpoint commercials_between (sc : list (Q * Q)) (cms : list (Q * Q)) : Prop :=
  match sc, cms with
  | [_], [] => True
  | p :: ((q :: _) as t), c :: cms' =>
      snd p = fst c /\ fst c < snd c /\ snd c = fst q /\ commercials_between t cms'
  | _, _ => False
  end.

(** The commercial intervals handed to [generate_scenes] are ascending
    and well formed, after the first scene start [lo] and before the end
    of the final scene. *)
Fixpoint cms_ascending (lo : Q) (cms : list (Q * Q)) (last_end d : Q) : Prop :=
  match cms with
  | [] => if qeq d 0 then lo <= last_end else 0 <= d + end_margin_sec
  | c :: t => lo <= fst c /\ fst c < snd c /\ cms_ascending (snd c) t last_end d
  end.

(** The scan state between iterations: one commercial per structure
    matched so far, and the target is the structure at
    [structure_reference], which is inside the supplied list. *)
Definition scan_inv (cm_structures : list NominalCMStructure) (st : scan_state) : Prop :=
  length (cm_sections st) = structure_reference st /\
  (structure_reference st < length cm_structures)%nat /\
  nth_error cm_structures (structure_reference st) = Some (target_cm_structure st) /\
  nominal_cm_duration st = nominal_duration (target_cm_structure st).

(** The loop of [extract_silent_sections] seen at the level of frame
    indices: the pairs [(start_frame_index, end_frame_index)] it passes
    to [SilentSection]. *)
Fixpoint run_frames (thr : Z) (idx : nat) (vals : list Q) (dur : nat) (last : Q)
    (start : nat) : list (nat * nat) :=
  match vals with
  | [] => []
  | x :: xs =>
      if qeq x 0 then
        run_frames thr (S idx) xs (S dur) x (if negb (qeq last 0) then idx else start)
      else if (0 <? dur)%nat then
        if (thr <? Z.of_nat dur)%Z then (start, idx) :: run_frames thr (S idx) xs 0 x start
        else run_frames thr (S idx) xs 0 x start
      else run_frames thr (S idx) xs 0 x start
  end.

Definition section_of (fps : Q) (p : nat * nat) : SilentSection :=
  mkSilent fps (Z2Q (Z.of_nat (fst p)) / fps) (Z2Q (Z.of_nat (snd p)) / fps).

(** Frames of a loudness sequence, and the maximal zero runs closed by a
    non-zero frame, as the specification describes them. *)
Definition zero_at (l : list Q) (i : nat) : Prop :=
  exists x, nth_error l i = Some x /\ qeq x 0 = true.

Definition nonzero_at (l : list Q) (i : nat) : Prop :=
  exists x, nth_error l i = Some x /\ qeq x 0 = false.

Definition closed_zero_run (l : list Q) (a b : nat) : Prop :=
  (a < b)%nat /\ (forall i, (a <= i < b)%nat -> zero_at l i) /\ nonzero_at l b /\
  (a = 0%nat \/ nonzero_at l (a - 1)).

(** Loop invariants of [extract_silent_sections] at frame [idx]. *)
Definition frame_inv0 (idx dur : nat) (last : Q) (start : nat) : Prop :=
  ((0 < dur)%nat <-> qeq last 0 = true) /\ ((0 < dur)%nat -> (start + dur)%nat = idx).

Definition frame_inv (l : list Q) (idx dur : nat) (last : Q) (start : nat) : Prop :=
  frame_inv0 idx dur last start /\
  (dur = 0%nat -> idx = 0%nat \/ nonzero_at l (idx - 1)) /\
  ((0 < dur)%nat -> (forall i, (start <= i < idx)%nat -> zero_at l i) /\
                    (start = 0%nat \/ nonzero_at l (start - 1))).

(** ** Concrete configurations *)

Definition zeros (n : nat) : list Q := repeat 0 n.
Definition ones (n : nat) : list Q := repeat 1 n.

(** Structures as [cmcut_direct.py] builds them from the property file. *)
Definition cm30 : composition := [("cm"%string, 30)].
Definition cm60 : composition := [("cm"%string, 60)].
Definition mono45 : composition := [("monolithic_cm"%string, 45)].
Definition cm_mono3 : composition := [("cm"%string, 3); ("monolithic_cm"%string, 3)].

Definition structures_of (cs : list composition) (margin : Q)
    : res (list NominalCMStructure) :=
  fold_right (fun c acc => t <- NominalCMStructure_init c margin ;;
                           ts <- acc ;; Ok (t :: ts)) (Ok []) cs.

(** Silences (in seconds, one frame per second) [0,1), [15,16), [31,32). *)
Definition overshoot_loudness : list Q :=
  zeros 1 ++ ones 14 ++ zeros 1 ++ ones 15 ++ zeros 1 ++ ones 1.

(** Silences [0,1), [15,16), [30,31), [75,76), [90,91). *)
Definition retained_anchor_loudness : list Q :=
  zeros 1 ++ ones 14 ++ zeros 1 ++ ones 14 ++ zeros 1 ++ ones 44
  ++ zeros 1 ++ ones 14 ++ zeros 1 ++ ones 1.

(** Silences [0,1), [10,11), [25,26), [40,41), [45,46). *)
Definition stale_units_loudness : list Q :=
  zeros 1 ++ ones 9 ++ zeros 1 ++ ones 14 ++ zeros 1 ++ ones 14
  ++ zeros 1 ++ ones 4 ++ zeros 1 ++ ones 1.

(** Silences [0,1), [2,8), [16,17). *)
Definition no_scene_loudness : list Q :=
  zeros 1 ++ ones 1 ++ zeros 6 ++ ones 8 ++ zeros 1 ++ ones 1.

Definition cm30_structure : NominalCMStructure := mkStructure cm30 30 2.
Definition cm60_structure : NominalCMStructure := mkStructure cm60 60 2.
Definition mono45_structure : NominalCMStructure := mkStructure mono45 45 2.
Definition cm_mono3_structure : NominalCMStructure := mkStructure cm_mono3 6 4.

(** The silences of [overshoot_loudness]. *)
Definition sA := mkSilent 1 0 1.
Definition sB := mkSilent 1 15 16.
Definition sC := mkSilent 1 31 32.

(** The silences of [retained_anchor_loudness]. *)
Definition r0 := mkSilent 1 0 1.
Definition r1 := mkSilent 1 15 16.
Definition r2 := mkSilent 1 30 31.
Definition r3 := mkSilent 1 75 76.
Definition r4 := mkSilent 1 90 91.

(** * Proofs *)

(** ** Comparison helpers *)

Lemma qle_compat (a a' b b' : Q) : a == a' -> b == b' -> qle a b = qle a' b'.
Proof.
  intros Ha Hb. unfold qle.
  destruct (Qle_bool a b) eqn:E1, (Qle_bool a' b') eqn:E2; try reflexivity.
  - apply Qle_bool_iff in E1. rewrite Ha, Hb in E1.
    apply Qle_bool_iff in E1. congruence.
  - apply Qle_bool_iff in E2. rewrite <- Ha, <- Hb in E2.
    apply Qle_bool_iff in E2. congruence.
Qed.

Lemma qle_true (a b : Q) : qle a b = true <-> a <= b.
Proof. apply Qle_bool_iff. Qed.

Lemma qlt_true (a b : Q) : qlt a b = true <-> a < b.
Proof.
  unfold qlt. rewrite negb_true_iff. split.
  - intro H. apply Qnot_le_lt. intro H'. apply Qle_bool_iff in H'. congruence.
  - intro H. destruct (Qle_bool b a) eqn:E; [|reflexivity].
    apply Qle_bool_iff in E. exfalso. apply (Qlt_not_le _ _ H E).
Qed.

Lemma last_elem_cons {A} (u : A) (U : list A) :
  U <> [] -> last_elem (u :: U) = last_elem U.
Proof.
  intro HU. unfold last_elem. simpl.
  destruct (rev U) eqn:E.
  - apply (f_equal (@rev A)) in E. rewrite rev_involutive in E. simpl in E.
    congruence.
  - reflexivity.
Qed.

Lemma max_of_ge_head (u : Q) (U : list Q) : u <= max_of (u :: U).
Proof.
  destruct U as [|v U]; simpl.
  - apply Qle_refl.
  - apply Q.le_max_l.
Qed.

(** For the sorted lists [DurationSecUnits] keeps, [durations_sec[-1]]
    is the maximum. *)
Lemma last_elem_sorted_max (U : list Q) :
  U <> [] -> Sorted Qle U -> exists x, last_elem U = Ok x /\ x == max_of U.
Proof.
  induction U as [|u U IH]; intros Hne Hs; [congruence|].
  destruct U as [|v U'].
  - exists u. split; reflexivity.
  - apply Sorted_inv in Hs as [Hs Hhd]. apply HdRel_inv in Hhd.
    destruct (IH ltac:(discriminate) Hs) as [x [Hx Heq]].
    exists x. split.
    + rewrite last_elem_cons by discriminate. exact Hx.
    + change (max_of (u :: v :: U')) with (Qmax u (max_of (v :: U'))).
      rewrite Q.max_r; [exact Heq|].
      apply Qle_trans with v; [exact Hhd|apply max_of_ge_head].
Qed.

Lemma divider_loop_spec (s : SilentSection) (U : list Q) (m x : Q) :
  last_elem U = Ok x -> x == max_of U ->
  forall fs, is_cm_divider_candidate s fs U m = Ok (spec_divider_candidate s fs U m).
Proof.
  intros Hx Heq fs. unfold spec_divider_candidate.
  induction fs as [|f fs IH]; simpl; [reflexivity|].
  rewrite Hx. simpl.
  rewrite (qle_compat (x + m) (max_of U + m) (end_sec f - start_sec s)
             (end_sec f - start_sec s)) by first [rewrite Heq; reflexivity | reflexivity].
  destruct (qle (max_of U + m) (end_sec f - start_sec s)); [reflexivity|].
  simpl. destruct (existsb _ U); [reflexivity|]. exact IH.
Qed.

Lemma existsb_in_band (s : SilentSection) (m : Q) (U : list Q) (fs : list SilentSection) :
  existsb (fun f => existsb (fun u => in_band m u (end_sec f - start_sec s)) U) fs = true <->
  exists f u, In f fs /\ In u U /\
    u < end_sec f - start_sec s <= u + m.
Proof.
  rewrite existsb_exists. split.
  - intros [f [Hf Hex]]. apply existsb_exists in Hex as [u [Hu Hb]].
    unfold in_band in Hb. apply andb_true_iff in Hb as [H1 H2].
    apply qlt_true in H1. apply qle_true in H2. exists f, u. auto.
  - intros [f [u [Hf [Hu [H1 H2]]]]]. exists f. split; [exact Hf|].
    apply existsb_exists. exists u. split; [exact Hu|].
    unfold in_band. apply andb_true_iff. split.
    + apply qlt_true. exact H1.
    + apply qle_true. exact H2.
Qed.

(** ** Claim C1 *)

(** C1: for a non-empty sorted unit list [U] (as [DurationSecUnits]
    keeps it) and a positive margin, [is_cm_divider_candidate] never
    fails and returns [True] exactly when some forward interval scanned
    before the first one with [gap >= max(U) + m] has a unit [u] with
    [u < gap <= u + m]; the band excludes [gap = u] and includes
    [gap = u + m]. *)
Theorem is_cm_divider_candidate_spec (s : SilentSection) (fs : list SilentSection)
    (U : list Q) (m : Q) (HU : U <> []) (Hs : Sorted Qle U) (Hm : 0 < m) :
  (exists b, is_cm_divider_candidate s fs U m = Ok b) /\
  (is_cm_divider_candidate s fs U m = Ok true <->
     exists f u, In f (scanned_before_stop (start_sec s) (max_of U + m) fs) /\
       In u U /\ u < end_sec f - start_sec s <= u + m) /\
  (forall u, in_band m u u = false) /\
  (forall u, in_band m u (u + m) = true).
Proof.
  destruct (last_elem_sorted_max U HU Hs) as [x [Hx Heq]].
  rewrite (divider_loop_spec s U m x Hx Heq fs).
  split; [eexists; reflexivity|]. split; [|split].
  - unfold spec_divider_candidate. rewrite <- existsb_in_band.
    split; [intro H; injection H; auto|intro H; rewrite H; reflexivity].
  - intro u. unfold in_band. destruct (qlt u u) eqn:E; [|reflexivity].
    apply qlt_true in E. exfalso. apply (Qlt_irrefl u E).
  - intro u. unfold in_band. apply andb_true_iff. split.
    + apply qlt_true. rewrite <- (Qplus_0_r u) at 1.
      apply Qplus_lt_r. exact Hm.
    + apply qle_true. apply Qle_refl.
Qed.

(** The unit-test configuration of [test_is_cm_divider_candidate]:
    frame rate 10, target [(0, 1)], followers [(10, 11)] and [(20, 21)],
    units [1; 2], margin 0.1. *)
Lemma is_cm_divider_candidate_spec_witness :
  [1; 2] <> [] /\ Sorted Qle [1; 2] /\ 0 < 1 # 10 /\
  is_cm_divider_candidate (mkSilent 10 0 (1 # 10))
    [mkSilent 10 1 (11 # 10); mkSilent 10 2 (21 # 10)] [1; 2] (1 # 10) = Ok true.
Proof.
  assert (HU : [1; 2] <> @nil Q) by discriminate.
  assert (Hs : Sorted Qle [1; 2]).
  { repeat constructor. unfold Qle. simpl. lia. }
  assert (Hm : 0 < 1 # 10) by reflexivity.
  split; [exact HU|]. split; [exact Hs|]. split; [exact Hm|].
  apply (is_cm_divider_candidate_spec (mkSilent 10 0 (1 # 10))
           [mkSilent 10 1 (11 # 10); mkSilent 10 2 (21 # 10)] [1; 2] (1 # 10) HU Hs Hm).
  exists (mkSilent 10 1 (11 # 10)), 1. simpl.
  split; [left; reflexivity|]. split; [left; reflexivity|].
  split; unfold Qlt, Qle; simpl; lia.
Defined.


(** ** Claim C6 *)

(** C6: with [starting_range_sec = 5] and [end_margin_sec = 1],
    [generate_scenes] reproduces the three cases of
    [test_generate_scenes]. *)
Theorem generate_scenes_literal_cases :
  generate_scenes 3 20 [(5, 10); (12, 15)] 5 = [(3, 5); (10, 12); (15, 21)] /\
  generate_scenes 7 25 [(9, 12); (15, 20)] 0 = [(0, 9); (12, 15); (20, 25)] /\
  generate_scenes 6 30 [(8, 12); (16, 22)] 7 = [(0, 8); (12, 16); (22, 30)].
Proof. repeat split; vm_compute; reflexivity. Qed.

(** ** Claim C10 *)

(** C10: a structure accepted by [NominalCMStructure.__init__] with two
    components, neither of them ["scene"], makes [get_actual_cm_section]
    fall through its loop and return [None] for every pair of edges. *)
Theorem get_actual_cm_section_without_scene (k1 k2 : string) (v1 v2 margin : Q)
    (t : NominalCMStructure)
    (Ht : NominalCMStructure_init [(k1, v1); (k2, v2)] margin = Ok t)
    (H1 : k1 <> "scene"%string) (H2 : k2 <> "scene"%string) :
  forall l r, get_actual_cm_section t l r = None.
Proof.
  unfold NominalCMStructure_init in Ht.
  destruct (structure_sum 0 [(k1, v1); (k2, v2)]) as [nominal|e]; simpl in Ht;
    [|discriminate].
  destruct (qle margin 0); [discriminate|].
  injection Ht as <-. intros l r.
  unfold get_actual_cm_section. simpl.
  apply String.eqb_neq in H1, H2. rewrite H1, H2. reflexivity.
Qed.

(** [{'cm': 3, 'monolithic_cm': 3}] with margin 4: the accessor returns
    [None], and the matcher emits it as a commercial section on the
    silences [0,1), [2,8), [16,17). *)
Lemma get_actual_cm_section_without_scene_witness :
  NominalCMStructure_init cm_mono3 4 = Ok cm_mono3_structure /\
  get_actual_cm_section cm_mono3_structure 1 2 = None /\
  (exists secs, extract_silent_sections no_scene_loudness 0 1 = Ok secs /\
     fst (construct_cm_sections secs [cm_mono3_structure] false [15; 30]) = Ok [None]).
Proof.
  assert (Ht : NominalCMStructure_init cm_mono3 4 = Ok cm_mono3_structure)
    by (vm_compute; reflexivity).
  split; [exact Ht|]. split.
  - apply (get_actual_cm_section_without_scene "cm" "monolithic_cm" 3 3 4
             cm_mono3_structure Ht); discriminate.
  - eexists. split; [vm_compute; reflexivity|]. vm_compute. reflexivity.
Defined.

(** ** Claims C4 and C5 *)

(** C4 (evaluation at the failing input): [append_duration] appends to
    the caller's own [durations_sec] list, and a scan whose target
    becomes monolithic leaves the unit appended to the caller's set. *)
Theorem append_duration_mutates_caller :
  append_duration 60 [15; 30] = (Ok (mkUnits [15; 30; 60]), [15; 30; 60]) /\
  structures_of [cm30; mono45] 2 = Ok [cm30_structure; mono45_structure] /\
  snd (construct_program_scenes stale_units_loudness 0 1
         [cm30_structure; mono45_structure] 0 false [15; 30]) = [15; 30; 45].
Proof. repeat split; vm_compute; reflexivity. Qed.

(** C5 (evaluation at the failing input): the first run of the pipeline
    on the silences [0,1), [10,11), [25,26), [40,41), [45,46) with
    structures [{'cm': 30}, {'monolithic_cm': 45}] (margin 2) matches one
    commercial [(11, 40)] and leaves 45 in the caller's unit set; the
    second run on the same loudness and the same [DurationSecUnits]
    object classifies [(0,1)] as a divider and matches nothing. *)
Theorem pipeline_second_run_differs :
  structures_of [cm30; mono45] 2 = Ok [cm30_structure; mono45_structure] /\
  construct_program_scenes stale_units_loudness 0 1
    [cm30_structure; mono45_structure] 0 false [15; 30]
    = (Ok [(0, 11); (40, 46)], [15; 30; 45]) /\
  construct_program_scenes stale_units_loudness 0 1
    [cm30_structure; mono45_structure] 0 false [15; 30; 45]
    = (Ok [(0, 46)], [15; 30; 45]) /\
  [(0, 11); (40, 46)] <> [(0, 46)].
Proof. repeat split; try (vm_compute; reflexivity). discriminate. Qed.

(** ** Claim C2 *)

Lemma last_default {A} (y : A) (ys : list A) (d d' : A) :
  last (y :: ys) d = last (y :: ys) d'.
Proof.
  revert y. induction ys as [|z zs IH]; intro y; [reflexivity|].
  change (last (z :: zs) d = last (z :: zs) d'). apply IH.
Qed.

Lemma last_elem_last {A} (x : A) (xs : list A) :
  last_elem (x :: xs) = Ok (last (x :: xs) x).
Proof.
  revert x. induction xs as [|y ys IH]; intro x; [reflexivity|].
  rewrite last_elem_cons by discriminate. rewrite IH.
  change (last (x :: y :: ys) x) with (last (y :: ys) x).
  rewrite (last_default y ys x y). reflexivity.
Qed.

(** C2 as stated does not hold: on the silences [0,1), [15,16), [31,32)
    with the single structure [{'cm': 30}] (margin 2, threshold 1), the
    third iteration has two candidates, [combined = 32 >= 30 + 2], and
    the candidate list afterwards is [[15,16)], not empty. *)
Lemma cm_step_overshoot_not_emptied :
  extract_silent_sections overshoot_loudness 0 1 = Ok [sA; sB; sC] /\
  NominalCMStructure_init cm30 2 = Ok cm30_structure /\
  cm_step [cm30_structure] 2 1 sA [sB; sC] (initial_scan cm30_structure) [15; 30]
    = (Ok (false, mkScan [sA] [] 0 cm30_structure 30), [15; 30]) /\
  cm_step [cm30_structure] 2 1 sB [sC] (mkScan [sA] [] 0 cm30_structure 30) [15; 30]
    = (Ok (false, mkScan [sA; sB] [] 0 cm30_structure 30), [15; 30]) /\
  is_cm_divider_candidate sC [] [15; 30] 2 = Ok false /\
  candidates_could_be_cm cm30_structure 1 [sA; sB] = true /\
  30 + 2 <= end_sec sC - start_sec sA /\
  cm_step [cm30_structure] 2 1 sC [] (mkScan [sA; sB] [] 0 cm30_structure 30) [15; 30]
    = (Ok (false, mkScan [sB] [] 0 cm30_structure 30), [15; 30]) /\
  [sB] <> [].
Proof.
  repeat split; try (vm_compute; reflexivity).
  - unfold Qle. simpl. lia.
  - discriminate.
Qed.

(** C2 (amended): in an iteration where the candidate-count condition
    holds on the updated candidate list [c0 :: cs] and
    [combined = section.end_sec - c0.start_sec >= nominal + margin]
    (margin positive), the iteration neither matches nor breaks: the
    candidate list becomes the one-element list of its last candidate,
    and the rest of the scan state is unchanged. *)
Theorem cm_step_overshoot_retains_last (cm_structures : list NominalCMStructure)
    (margin : Q) (thr : nat) (section : SilentSection) (rest : list SilentSection)
    (st : scan_state) (s s1 : store) (tmp : DurationSecUnits) (cand : bool)
    (c0 : SilentSection) (cs : list SilentSection)
    (Hm : 0 < margin)
    (Htmp : tmp_units (target_cm_structure st) s = (Ok tmp, s1))
    (Hcand : is_cm_divider_candidate section rest (durations_sec tmp) margin = Ok cand)
    (Hc : (if cand then cm_divider_candidates st ++ [section]
           else cm_divider_candidates st) = c0 :: cs)
    (Hcould : candidates_could_be_cm (target_cm_structure st) thr (c0 :: cs) = true)
    (Hover : nominal_cm_duration st + margin <= end_sec section - start_sec c0) :
  cm_step cm_structures margin thr section rest st s
    = (Ok (false, with_candidates st [last (c0 :: cs) c0]), s1).
Proof.
  unfold cm_step, mbind. rewrite Htmp. unfold mlift. rewrite Hcand.
  rewrite Hc, Hcould.
  assert (Hle : qle (end_sec section - start_sec c0) (nominal_cm_duration st) = false).
  { destruct (qle _ _) eqn:E; [|reflexivity]. apply qle_true in E.
    exfalso. apply (Qlt_not_le (nominal_cm_duration st) (end_sec section - start_sec c0)).
    - apply Qlt_le_trans with (nominal_cm_duration st + margin); [|exact Hover].
      rewrite <- (Qplus_0_r (nominal_cm_duration st)) at 1. apply Qplus_lt_r. exact Hm.
    - exact E. }
  rewrite Hle.
  assert (Hlt : qlt (end_sec section - start_sec c0) (nominal_cm_duration st + margin) = false).
  { destruct (qlt _ _) eqn:E; [|reflexivity]. apply qlt_true in E.
    exfalso. exact (Qlt_not_le _ _ E Hover). }
  rewrite Hlt, andb_false_r. rewrite last_elem_last. reflexivity.
Qed.

Lemma cm_step_overshoot_retains_last_witness :
  0 < 2 /\
  tmp_units cm30_structure [15; 30] = (Ok (mkUnits [15; 30]), [15; 30]) /\
  is_cm_divider_candidate sC [] [15; 30] 2 = Ok false /\
  candidates_could_be_cm cm30_structure 1 [sA; sB] = true /\
  30 + 2 <= end_sec sC - start_sec sA /\
  cm_step [cm30_structure] 2 1 sC [] (mkScan [sA; sB] [] 0 cm30_structure 30) [15; 30]
    = (Ok (false, mkScan [sB] [] 0 cm30_structure 30), [15; 30]).
Proof.
  assert (Hm : 0 < 2) by reflexivity.
  assert (Htmp : tmp_units cm30_structure [15; 30] = (Ok (mkUnits [15; 30]), [15; 30]))
    by reflexivity.
  assert (Hcand : is_cm_divider_candidate sC [] [15; 30] 2 = Ok false) by reflexivity.
  assert (Hcould : candidates_could_be_cm cm30_structure 1 [sA; sB] = true)
    by reflexivity.
  assert (Hover : 30 + 2 <= end_sec sC - start_sec sA) by (unfold Qle; simpl; lia).
  split; [exact Hm|]. split; [exact Htmp|]. split; [exact Hcand|].
  split; [exact Hcould|]. split; [exact Hover|].
  exact (cm_step_overshoot_retains_last [cm30_structure] 2 1 sC []
           (mkScan [sA; sB] [] 0 cm30_structure 30) [15; 30] [15; 30]
           (mkUnits [15; 30]) false sA [sB] Hm Htmp Hcand eq_refl Hcould Hover).
Defined.

(** ** Claim C3 *)

(** C3 as stated does not hold: on the silences [0,1), [15,16), [30,31),
    [75,76), [90,91) with structures [{'cm': 30}, {'cm': 60}] (margin 2),
    the matcher keeps [(15,16)] as anchor after the first match, so the
    second commercial [(16, 75)] starts before the first [(1, 30)] ends
    and the pipeline emits the scene [(30, 16)]. *)
Lemma pipeline_scenes_not_ordered :
  structures_of [cm30; cm60] 2 = Ok [cm30_structure; cm60_structure] /\
  construct_program_scenes retained_anchor_loudness 0 1
    [cm30_structure; cm60_structure] 0 false [15; 30]
    = (Ok [(0, 1); (30, 16); (75, 91)], [15; 30]) /\
  fst (construct_cm_sections
         [mkSilent 1 0 1; mkSilent 1 15 16; mkSilent 1 30 31;
          mkSilent 1 75 76; mkSilent 1 90 91]
         [cm30_structure; cm60_structure] false [15; 30])
    = Ok [Some (1, 30); Some (16, 75)] /\
  ~ scenes_well_ordered [(0, 1); (30, 16); (75, 91)].
Proof.
  split; [vm_compute; reflexivity|]. split; [vm_compute; reflexivity|].
  split; [vm_compute; reflexivity|].
  simpl. intros [_ [_ [H _]]]. unfold Qle in H. simpl in H. lia.
Qed.

Lemma scenes_loop_head (lo : Q) (cms : list (Q * Q)) (last_end d : Q) :
  exists e t, scenes_loop lo cms last_end d = (lo, e) :: t.
Proof. destruct cms; simpl; [destruct (negb _)|]; eauto. Qed.

Lemma Qle_plus_nonneg (lo d e : Q) : 0 <= d + e -> lo <= lo + d + e.
Proof.
  intro H. rewrite <- Qplus_assoc. rewrite <- (Qplus_0_r lo) at 1.
  apply Qplus_le_r. exact H.
Qed.

Lemma scenes_loop_between (cms : list (Q * Q)) (lo last_end d : Q) :
  cms_ascending lo cms last_end d ->
  scenes_well_ordered (scenes_loop lo cms last_end d) /\
  commercials_between (scenes_loop lo cms last_end d) cms.
Proof.
  revert lo. induction cms as [|c cms IH]; intros lo H.
  - simpl in H |- *. destruct (qeq d 0); simpl; repeat split; try exact I.
    + exact H.
    + exact (Qle_plus_nonneg lo d end_margin_sec H).
  - destruct H as [H1 [H2 H3]]. destruct (IH (snd c) H3) as [IHo IHb].
    destruct (scenes_loop_head (snd c) cms last_end d) as [e [t Ht]].
    simpl. rewrite Ht in *. split.
    + split; [exact H1|]. split; [simpl; apply Qlt_le_weak; exact H2|exact IHo].
    + split; [reflexivity|]. split; [exact H2|]. split; [reflexivity|exact IHb].
Qed.

Lemma scenes_loop_adjacent (cms : list (Q * Q)) (last_end d : Q) :
  forall lo, commercials_adjacent (scenes_loop lo cms last_end d) cms.
Proof.
  induction cms as [|c cms IH]; intro lo.
  - simpl. destruct (negb _); exact I.
  - destruct (scenes_loop_head (snd c) cms last_end d) as [e [t Ht]].
    simpl. rewrite Ht. specialize (IH (snd c)). rewrite Ht in IH.
    split; [reflexivity|]. split; [reflexivity|exact IH].
Qed.

(** C3 (amended): [generate_scenes] places commercial [k] between scene
    [k] and scene [k + 1]: scene [k] ends exactly where the commercial
    starts and scene [k + 1] starts exactly where it ends, for every
    input.  The scenes are ordered, non-overlapping intervals, with each
    commercial a proper interval between its two scenes, whenever the
    commercial intervals it receives are well formed and ascending from
    the first scene start to the end of the final scene.  The matcher
    does not guarantee that precondition. *)
Theorem generate_scenes_between (first_start last_end d : Q) (cms : list (Q * Q)) :
  commercials_adjacent (generate_scenes first_start last_end cms d) cms /\
  (cms_ascending (if qlt first_start starting_range_sec then first_start else 0)
     cms last_end d ->
   scenes_well_ordered (generate_scenes first_start last_end cms d) /\
   commercials_between (generate_scenes first_start last_end cms d) cms).
Proof.
  unfold generate_scenes. split; [apply scenes_loop_adjacent|].
  intro H. apply scenes_loop_between. exact H.
Qed.

Lemma generate_scenes_between_witness :
  cms_ascending 3 [(5, 10); (12, 15)] 20 5 /\
  commercials_adjacent (generate_scenes 3 20 [(5, 10); (12, 15)] 5) [(5, 10); (12, 15)] /\
  scenes_well_ordered (generate_scenes 3 20 [(5, 10); (12, 15)] 5) /\
  commercials_between (generate_scenes 3 20 [(5, 10); (12, 15)] 5) [(5, 10); (12, 15)].
Proof.
  assert (H : cms_ascending 3 [(5, 10); (12, 15)] 20 5).
  { simpl. unfold Qle, Qlt. simpl. lia. }
  split; [exact H|]. split.
  - exact (proj1 (generate_scenes_between 3 20 5 [(5, 10); (12, 15)])).
  - exact (proj2 (generate_scenes_between 3 20 5 [(5, 10); (12, 15)]) H).
Defined.

(** ** Claim C8 *)

Lemma with_candidates_inv (cm_structures : list NominalCMStructure)
    (st : scan_state) (c : list SilentSection) :
  scan_inv cm_structures st -> scan_inv cm_structures (with_candidates st c).
Proof. intro H. exact H. Qed.

(** One iteration keeps the invariant, or breaks right after matching
    the last structure. *)
Lemma cm_step_inv (cm_structures : list NominalCMStructure) (margin : Q)
    (thr : nat) (section : SilentSection) (rest : list SilentSection)
    (st st' : scan_state) (s s' : store) (b : bool) :
  scan_inv cm_structures st ->
  cm_step cm_structures margin thr section rest st s = (Ok (b, st'), s') ->
  if b then length (cm_sections st') = length cm_structures /\
            exists cm, cm_sections st' = cm_sections st ++ [cm]
  else scan_inv cm_structures st'.
Proof.
  intros Hinv Hstep. unfold cm_step, mbind in Hstep.
  destruct (tmp_units (target_cm_structure st) s) as [[tmp|e] s1]; [|discriminate].
  unfold mlift in Hstep.
  destruct (is_cm_divider_candidate section rest (durations_sec tmp) margin)
    as [cand|e]; [|discriminate].
  remember (if cand then cm_divider_candidates st ++ [section]
            else cm_divider_candidates st) as cands eqn:Hc.
  destruct (candidates_could_be_cm (target_cm_structure st) thr cands).
  2:{ injection Hstep as <- <- _. apply with_candidates_inv. exact Hinv. }
  destruct cands as [|c0 cs]; [discriminate|].
  destruct (qle _ _).
  { injection Hstep as <- <- _. apply with_candidates_inv. exact Hinv. }
  rewrite last_elem_last in Hstep.
  destruct (_ && _).
  2:{ injection Hstep as <- <- _. apply with_candidates_inv. exact Hinv. }
  destruct Hinv as [Hlen [Hlt [Hnth Hnom]]].
  destruct (S (structure_reference st) <? length cm_structures)%nat eqn:Href.
  - destruct (nth_error cm_structures (S (structure_reference st))) as [t'|] eqn:Ht';
      [|discriminate].
    injection Hstep as <- <- _. apply Nat.ltb_lt in Href.
    repeat split; simpl; auto.
    rewrite length_app, Hlen. simpl. lia.
  - injection Hstep as <- <- _. apply Nat.ltb_ge in Href. simpl. split.
    + rewrite length_app, Hlen. simpl. lia.
    + eexists. reflexivity.
Qed.

Lemma cm_loop_bound (cm_structures : list NominalCMStructure) (margin : Q)
    (thr : nat) (secs : list SilentSection) :
  forall st st' s s',
  scan_inv cm_structures st ->
  cm_loop cm_structures margin thr secs st s = (Ok st', s') ->
  (length (cm_sections st') <= length cm_structures)%nat.
Proof.
  induction secs as [|section rest IH]; intros st st' s s' Hinv Hloop.
  - injection Hloop as <- _. destruct Hinv as [Hlen [Hlt _]]. lia.
  - simpl in Hloop. unfold mbind in Hloop.
    destruct (cm_step cm_structures margin thr section rest st s)
      as [[[b st1]|e] s1] eqn:Hstep; [|discriminate].
    pose proof (cm_step_inv _ _ _ _ _ _ _ _ _ _ Hinv Hstep) as Hb.
    destruct b; simpl in Hloop.
    + injection Hloop as <- _. destruct Hb as [Hb _]. lia.
    + exact (IH st1 st' s1 s' Hb Hloop).
Qed.

(** C8: with no structures [construct_cm_sections] returns the empty
    list at once (and leaves the units untouched); an iteration that
    matches the last supplied structure breaks the loop, which returns
    the commercials matched before plus this one without looking at the
    remaining silences; and a scan never emits more commercials than
    there are structures, as the target always stays inside the list. *)
Theorem construct_cm_sections_exhaustion :
  (forall secs mono s, construct_cm_sections secs [] mono s = (Ok [], s)) /\
  (forall cm_structures margin thr section rest st s b st' s',
     scan_inv cm_structures st ->
     cm_step cm_structures margin thr section rest st s = (Ok (b, st'), s') ->
     length (cm_sections st') = length cm_structures ->
     b = true /\ (exists cm, cm_sections st' = cm_sections st ++ [cm]) /\
     cm_loop cm_structures margin thr (section :: rest) st s = (Ok st', s')) /\
  (forall secs cm_structures mono s cms s',
     construct_cm_sections secs cm_structures mono s = (Ok cms, s') ->
     (length cms <= length cm_structures)%nat).
Proof.
  split; [reflexivity|]. split.
  - intros cm_structures margin thr section rest st s b st' s' Hinv Hstep Hlen.
    pose proof (cm_step_inv _ _ _ _ _ _ _ _ _ _ Hinv Hstep) as Hb.
    destruct b.
    + destruct Hb as [_ Hcm]. split; [reflexivity|]. split; [exact Hcm|].
      simpl. unfold mbind. rewrite Hstep. reflexivity.
    + exfalso. destruct Hb as [Hl [Hlt _]]. lia.
  - intros secs cm_structures mono s cms s' H.
    destruct cm_structures as [|t0 ts].
    + injection H as <- _. simpl. lia.
    + unfold construct_cm_sections, mbind in H.
      destruct (cm_loop _ _ _ _ _ s) as [[st'|e] s1] eqn:Hloop; [|discriminate].
      injection H as <- _.
      refine (cm_loop_bound _ _ _ _ _ _ _ _ _ Hloop).
      split; [reflexivity|]. split; [simpl; lia|]. split; reflexivity.
Qed.

(** The last supplied structure [{'cm': 30}] is matched at [[30,31)];
    the loop stops there and never looks at [[75,76)] and [[90,91)]. *)
Lemma construct_cm_sections_exhaustion_witness :
  scan_inv [cm30_structure] (mkScan [r0; r1] [] 0 cm30_structure 30) /\
  cm_step [cm30_structure] 2 1 r2 [r3; r4] (mkScan [r0; r1] [] 0 cm30_structure 30) [15; 30]
    = (Ok (true, mkScan [r0; r1] [Some (1, 30)] 1 cm30_structure 30), [15; 30]) /\
  cm_loop [cm30_structure] 2 1 [r2; r3; r4] (mkScan [r0; r1] [] 0 cm30_structure 30) [15; 30]
    = (Ok (mkScan [r0; r1] [Some (1, 30)] 1 cm30_structure 30), [15; 30]).
Proof.
  assert (Hinv : scan_inv [cm30_structure] (mkScan [r0; r1] [] 0 cm30_structure 30)).
  { split; [reflexivity|]. split; [simpl; lia|]. split; reflexivity. }
  assert (Hstep : cm_step [cm30_structure] 2 1 r2 [r3; r4]
                    (mkScan [r0; r1] [] 0 cm30_structure 30) [15; 30]
                  = (Ok (true, mkScan [r0; r1] [Some (1, 30)] 1 cm30_structure 30), [15; 30]))
    by (vm_compute; reflexivity).
  split; [exact Hinv|]. split; [exact Hstep|].
  apply (proj2 (proj1 (proj2 construct_cm_sections_exhaustion) [cm30_structure] 2 1%nat r2
           [r3; r4] _ [15; 30] true _ [15; 30] Hinv Hstep eq_refl)).
Defined.

(** ** Claims C7 and C9 *)

Lemma frame_inv0_zero (idx dur : nat) (last x : Q) (start : nat) :
  frame_inv0 idx dur last start -> qeq x 0 = true ->
  frame_inv0 (S idx) (S dur) x (if negb (qeq last 0) then idx else start).
Proof.
  intros [Hiff Hst] Hx. split.
  - split; [intros _; exact Hx|intros _; lia].
  - intros _. destruct (qeq last 0) eqn:El; simpl.
    + specialize (Hst (proj2 Hiff eq_refl)). lia.
    + destruct dur as [|dur]; [lia|].
      assert (Hc : false = true) by (apply Hiff; lia). discriminate.
Qed.

Lemma frame_inv0_nonzero (idx dur : nat) (last x : Q) (start : nat) :
  qeq x 0 = false -> frame_inv0 (S idx) 0 x start.
Proof. intros Hx. split; [split; [lia|congruence]|lia]. Qed.

Lemma qle_fps_false (fps : Q) : 0 < fps -> qle fps 0 = false.
Proof.
  intro H. destruct (qle fps 0) eqn:E; [|reflexivity].
  apply qle_true in E. exfalso. exact (Qlt_not_le _ _ H E).
Qed.

Lemma extract_loop_frames (fps : Q) (thr : Z) (Hfps : 0 < fps) (vals : list Q) :
  forall idx acc dur last start,
  frame_inv0 idx dur last start ->
  extract_loop fps thr idx vals acc dur last start
    = Ok (acc ++ map (section_of fps) (run_frames thr idx vals dur last start)).
Proof.
  induction vals as [|x xs IH]; intros idx acc dur last start Hinv.
  - simpl. rewrite app_nil_r. reflexivity.
  - simpl. destruct (qeq x 0) eqn:Ex.
    + apply IH. apply frame_inv0_zero; assumption.
    + destruct (Nat.ltb_spec 0 dur) as [Hd|Hd];
        [|apply IH; apply (frame_inv0_nonzero idx dur last x start Ex)].
      destruct (thr <? Z.of_nat dur)%Z.
      * destruct Hinv as [_ Hst]. specialize (Hst Hd).
        unfold SilentSection_init.
        replace (Z.of_nat start <? 0)%Z with false by (symmetry; apply Z.ltb_ge; lia).
        replace (Z.of_nat idx <=? 0)%Z with false by (symmetry; apply Z.leb_gt; lia).
        replace (Z.of_nat idx <=? Z.of_nat start)%Z with false
          by (symmetry; apply Z.leb_gt; lia).
        rewrite (qle_fps_false fps Hfps). simpl.
        rewrite IH by (apply (frame_inv0_nonzero idx dur last x start Ex)).
        rewrite <- app_assoc. reflexivity.
      * apply IH. apply (frame_inv0_nonzero idx dur last x start Ex).
Qed.

(** Without emitted frames the loop never builds a [SilentSection]. *)
Lemma extract_loop_no_frames (fps : Q) (thr : Z) (vals : list Q) :
  forall idx acc dur last start,
  run_frames thr idx vals dur last start = [] ->
  extract_loop fps thr idx vals acc dur last start = Ok acc.
Proof.
  induction vals as [|x xs IH]; intros idx acc dur last start H; [reflexivity|].
  simpl in H |- *. destruct (qeq x 0); [apply IH; exact H|].
  destruct (0 <? dur)%nat; [|apply IH; exact H].
  destruct (thr <? Z.of_nat dur)%Z; [discriminate|apply IH; exact H].
Qed.

Lemma run_frames_lower_bound (thr : Z) (vals : list Q) :
  forall idx dur last start,
  frame_inv0 idx dur last start ->
  forall p, In p (run_frames thr idx vals dur last start) ->
  ((if (0 <? dur)%nat then start else idx) <= fst p)%nat.
Proof.
  induction vals as [|x xs IH]; intros idx dur last start Hinv p Hp; [destruct Hp|].
  simpl in Hp. destruct (qeq x 0) eqn:Ex.
  - pose proof (IH _ _ _ _ (frame_inv0_zero idx dur last x start Hinv Ex) p Hp) as H.
    simpl in H. destruct Hinv as [Hiff Hst].
    destruct (qeq last 0) eqn:El; simpl in H.
    + pose proof (proj2 Hiff eq_refl) as Hd0.
      destruct (Nat.ltb_spec 0 dur); [exact H|lia].
    + destruct (Nat.ltb_spec 0 dur) as [Hd|Hd]; [|exact H].
      apply Hiff in Hd. congruence.
  - pose proof (frame_inv0_nonzero idx dur last x start Ex) as Hinv'.
    destruct Hinv as [_ Hst].
    destruct (Nat.ltb_spec 0 dur) as [Hd|Hd].
    + specialize (Hst Hd).
      destruct (thr <? Z.of_nat dur)%Z.
      * destruct Hp as [<-|Hp]; [simpl; lia|].
        pose proof (IH _ _ _ _ Hinv' p Hp) as H. simpl in H. lia.
      * pose proof (IH _ _ _ _ Hinv' p Hp) as H. simpl in H. lia.
    + pose proof (IH _ _ _ _ Hinv' p Hp) as H. simpl in H. lia.
Qed.

Lemma run_frames_sorted (thr : Z) (vals : list Q) :
  forall idx dur last start,
  frame_inv0 idx dur last start ->
  Sorted (fun p q => (snd p < fst q)%nat) (run_frames thr idx vals dur last start).
Proof.
  induction vals as [|x xs IH]; intros idx dur last start Hinv; [constructor|].
  simpl. destruct (qeq x 0) eqn:Ex.
  - apply IH. apply frame_inv0_zero; assumption.
  - pose proof (frame_inv0_nonzero idx dur last x start Ex) as Hinv'.
    destruct (0 <? dur)%nat; [|apply IH; exact Hinv'].
    destruct (thr <? Z.of_nat dur)%Z; [|apply IH; exact Hinv'].
    constructor; [apply IH; exact Hinv'|].
    destruct (run_frames thr (S idx) xs 0 x start) as [|q qs] eqn:Er; constructor.
    pose proof (run_frames_lower_bound thr xs (S idx) 0 x start Hinv' q) as H.
    rewrite Er in H. simpl in H. specialize (H (or_introl eq_refl)). simpl. lia.
Qed.

Lemma skipn_cons_nth (l : list Q) (n : nat) (x : Q) (t : list Q) :
  skipn n l = x :: t -> nth_error l n = Some x /\ skipn (S n) l = t.
Proof.
  revert l. induction n as [|n IH]; intros l H; destruct l as [|y l]; simpl in *;
    try discriminate.
  - injection H as -> ->. split; reflexivity.
  - apply IH. exact H.
Qed.

Lemma zero_nonzero (l : list Q) (i : nat) : zero_at l i -> nonzero_at l i -> False.
Proof. intros [x [Hx Hz]] [y [Hy Hnz]]. rewrite Hx in Hy. injection Hy as ->. congruence. Qed.

Lemma nonzero_bound (l : list Q) (b : nat) : nonzero_at l b -> (b < length l)%nat.
Proof. intros [x [Hx _]]. apply nth_error_Some. congruence. Qed.

(** A closed run ending at the current frame starts where the loop
    recorded [start_frame_index]. *)
Lemma run_start_unique (l : list Q) (idx dur : nat) (last : Q) (start a : nat) :
  frame_inv l idx dur last start -> (0 < dur)%nat -> closed_zero_run l a idx -> a = start.
Proof.
  intros [[_ Hst] [_ Hz]] Hd [Hab [Hza [_ Ha]]].
  specialize (Hst Hd). destruct (Hz Hd) as [Hzeros Hstart].
  destruct (Nat.lt_trichotomy a start) as [Hlt|[Heq|Hgt]]; [exfalso| exact Heq| exfalso].
  - destruct Hstart as [H0|Hnz]; [lia|].
    apply (zero_nonzero l (start - 1)); [apply Hza; lia|exact Hnz].
  - destruct Ha as [H0|Hnz]; [lia|].
    apply (zero_nonzero l (a - 1)); [apply Hzeros; lia|exact Hnz].
Qed.

Lemma frame_inv_zero (l : list Q) (idx dur : nat) (last x : Q) (start : nat) :
  nth_error l idx = Some x -> qeq x 0 = true -> frame_inv l idx dur last start ->
  frame_inv l (S idx) (S dur) x (if negb (qeq last 0) then idx else start).
Proof.
  intros Hnth Ex [H0 [Hd0 Hdp]]. split; [apply frame_inv0_zero; assumption|].
  split; [discriminate|]. intros _. destruct H0 as [Hiff Hst].
  destruct (qeq last 0) eqn:El; simpl.
  - destruct (Hdp (proj2 Hiff eq_refl)) as [Hzeros Hstart].
    split; [|exact Hstart]. intros i Hi.
    destruct (Nat.eq_dec i idx) as [->|Hne]; [exists x; auto|apply Hzeros; lia].
  - assert (Hd : dur = 0%nat).
    { destruct dur; [reflexivity|]. assert (false = true) by (apply Hiff; lia). discriminate. }
    split.
    + intros i Hi. replace i with idx by lia. exists x. auto.
    + exact (Hd0 Hd).
Qed.

Lemma frame_inv_nonzero (l : list Q) (idx : nat) (x : Q) (start : nat) :
  nth_error l idx = Some x -> qeq x 0 = false -> frame_inv l (S idx) 0 x start.
Proof.
  intros Hnth Ex. split; [apply (frame_inv0_nonzero idx 0 x x start Ex)|].
  split; [|lia]. intros _. right. replace (S idx - 1)%nat with idx by lia.
  exists x. auto.
Qed.

Lemma run_frames_iff (l : list Q) (thr : Z) (vals : list Q) :
  forall idx dur last start,
  skipn idx l = vals -> frame_inv l idx dur last start ->
  forall a b, In (a, b) (run_frames thr idx vals dur last start) <->
    closed_zero_run l a b /\ (thr < Z.of_nat (b - a))%Z /\ (idx <= b)%nat.
Proof.
  induction vals as [|x xs IH]; intros idx dur last start Hsk Hinv a b.
  - simpl. split; [intros []|]. intros [[_ [_ [Hb _]]] [_ Hib]].
    apply nonzero_bound in Hb. pose proof (length_skipn idx l) as Hl.
    rewrite Hsk in Hl. simpl in Hl. lia.
  - destruct (skipn_cons_nth _ _ _ _ Hsk) as [Hnth Hsk']. simpl.
    destruct (qeq x 0) eqn:Ex.
    + rewrite (IH _ _ _ _ Hsk' (frame_inv_zero l idx dur last x start Hnth Ex Hinv)).
      split; intros [Hc [Ht Hb]]; (split; [exact Hc|split; [exact Ht|]]); [lia|].
      destruct (Nat.eq_dec b idx) as [->|Hne]; [|lia].
      exfalso. destruct Hc as [_ [_ [Hnz _]]].
      apply (zero_nonzero l idx); [exists x; auto|exact Hnz].
    + pose proof (frame_inv_nonzero l idx x start Hnth Ex) as Hinv'.
      pose proof (IH _ _ _ _ Hsk' Hinv') as IH'.
      assert (Hclose : (0 < dur)%nat -> closed_zero_run l start idx).
      { intro Hd. destruct Hinv as [[_ Hst] [_ Hdp]].
        specialize (Hst Hd). destruct (Hdp Hd) as [Hzeros Hstart].
        split; [lia|]. split; [exact Hzeros|]. split; [exists x; auto|exact Hstart]. }
      destruct (Nat.ltb_spec 0 dur) as [Hd|Hd].
      * assert (Hlen : (idx - start)%nat = dur).
        { destruct Hinv as [[_ Hst] _]. specialize (Hst Hd). lia. }
        destruct (Z.ltb_spec thr (Z.of_nat dur)) as [Ht|Ht].
        -- simpl. rewrite IH'. split.
           ++ intros [Heq|[Hc [Ht' Hb]]].
              ** injection Heq as <- <-. split; [exact (Hclose Hd)|].
                 rewrite Hlen. split; [exact Ht|lia].
              ** split; [exact Hc|]. split; [exact Ht'|lia].
           ++ intros [Hc [Ht' Hb]]. destruct (Nat.eq_dec b idx) as [->|Hne].
              ** left. rewrite (run_start_unique l idx dur last start a Hinv Hd Hc).
                 reflexivity.
              ** right. split; [exact Hc|]. split; [exact Ht'|lia].
        -- rewrite IH'. split.
           ++ intros [Hc [Ht' Hb]]. split; [exact Hc|]. split; [exact Ht'|lia].
           ++ intros [Hc [Ht' Hb]]. destruct (Nat.eq_dec b idx) as [->|Hne].
              ** exfalso. rewrite (run_start_unique l idx dur last start a Hinv Hd Hc) in Ht'.
                 rewrite Hlen in Ht'. lia.
              ** split; [exact Hc|]. split; [exact Ht'|lia].
      * rewrite IH'. split.
        -- intros [Hc [Ht' Hb]]. split; [exact Hc|]. split; [exact Ht'|lia].
        -- intros [Hc [Ht' Hb]]. destruct (Nat.eq_dec b idx) as [->|Hne].
           ++ exfalso. destruct Hinv as [_ [Hd0 _]].
              destruct Hc as [Hab [Hza _]].
              destruct (Hd0 ltac:(lia)) as [H0|Hnz]; [lia|].
              apply (zero_nonzero l (idx - 1)); [apply Hza; lia|exact Hnz].
           ++ split; [exact Hc|]. split; [exact Ht'|lia].
Qed.

Lemma frame_inv_initial (l : list Q) : frame_inv l 0 0 (-1) 0.
Proof.
  split; [split; [split; [lia|discriminate]|lia]|].
  split; [left; reflexivity|lia].
Qed.

Lemma extract_frames_spec (l : list Q) (thr : Z) (a b : nat) :
  In (a, b) (run_frames thr 0 l 0 (-1) 0) <->
  closed_zero_run l a b /\ (thr < Z.of_nat (b - a))%Z.
Proof.
  rewrite (run_frames_iff l thr l 0 0 (-1) 0 eq_refl (frame_inv_initial l) a b).
  split; [intros [Hc [Ht _]]; auto|intros [Hc Ht]; split; [exact Hc|split; [exact Ht|lia]]].
Qed.

(** C7: for a positive frame rate, [extract_silent_sections] returns,
    in order (each run ends before the next starts), one section
    [SilentSection(a, b, frame_per_sec)] for exactly the maximal zero
    runs [a, b) that a non-zero frame [b] closes and whose length
    [b - a] exceeds [duration_frame_threshold]; shorter runs and a zero
    run reaching the end of the sequence are not emitted. *)
Theorem extract_silent_sections_spec (l : list Q) (thr : Z) (fps : Q) (Hfps : 0 < fps) :
  exists F,
    extract_silent_sections l thr fps = Ok (map (section_of fps) F) /\
    (forall a b, In (a, b) F <-> closed_zero_run l a b /\ (thr < Z.of_nat (b - a))%Z) /\
    Sorted (fun p q => (snd p < fst q)%nat) F.
Proof.
  exists (run_frames thr 0 l 0 (-1) 0). split; [|split].
  - unfold extract_silent_sections.
    rewrite (extract_loop_frames fps thr Hfps l 0 [] 0 (-1) 0
               (proj1 (frame_inv_initial l))).
    reflexivity.
  - apply extract_frames_spec.
  - apply run_frames_sorted. exact (proj1 (frame_inv_initial l)).
Qed.

(** Frames [0; 1; 0; 0; 1; 0; 0] at one frame per second, threshold 1:
    the run [0,1) is too short, [2,4) is emitted and the trailing run
    [5,7) is not closed. *)
Lemma extract_silent_sections_spec_witness :
  0 < 1 /\
  (exists F,
    extract_silent_sections [0; 1; 0; 0; 1; 0; 0] 1 1 = Ok (map (section_of 1) F) /\
    (forall a b, In (a, b) F <->
       closed_zero_run [0; 1; 0; 0; 1; 0; 0] a b /\ (1 < Z.of_nat (b - a))%Z) /\
    Sorted (fun p q => (snd p < fst q)%nat) F) /\
  extract_silent_sections [0; 1; 0; 0; 1; 0; 0] 1 1 = Ok [mkSilent 1 2 4].
Proof.
  assert (H : 0 < 1) by reflexivity.
  split; [exact H|]. split.
  - exact (extract_silent_sections_spec [0; 1; 0; 0; 1; 0; 0] 1 1 H).
  - vm_compute. reflexivity.
Defined.

(** C9: when no zero run closed by a non-zero frame is longer than the
    threshold, [extract_silent_sections] returns [[]] and both pipelines
    then fail with [IndexError] on [silent_sections[0]], whatever the
    structures, flags and units. *)
Theorem no_silent_section_index_error (l : list Q) (thr : Z) (fps : Q)
    (cm_structures : list NominalCMStructure) (last_scene_duration : Q)
    (has_monolithic_cm : bool) (units : list Q) (s : store)
    (Hnone : forall a b, closed_zero_run l a b -> (Z.of_nat (b - a) <= thr)%Z) :
  extract_silent_sections l thr fps = Ok [] /\
  fst (construct_program_scenes l thr fps cm_structures last_scene_duration
         has_monolithic_cm s) = Err IndexError /\
  construct_program_scenes_without_structure l thr fps units = Err IndexError.
Proof.
  assert (Hf : run_frames thr 0 l 0 (-1) 0 = []).
  { destruct (run_frames thr 0 l 0 (-1) 0) as [|[a b] F] eqn:E; [reflexivity|].
    exfalso. assert (Hin : In (a, b) (run_frames thr 0 l 0 (-1) 0))
      by (rewrite E; left; reflexivity).
    apply extract_frames_spec in Hin as [Hc Ht].
    specialize (Hnone a b Hc). lia. }
  assert (He : extract_silent_sections l thr fps = Ok []).
  { unfold extract_silent_sections. apply extract_loop_no_frames. exact Hf. }
  split; [exact He|]. split.
  - unfold construct_program_scenes, mbind, mlift. rewrite He.
    destruct cm_structures; reflexivity.
  - unfold construct_program_scenes_without_structure. rewrite He. reflexivity.
Qed.

(** A sequence ending on silence, [0.0; 0.0]: the only zero run is never
    closed. *)
Lemma no_silent_section_index_error_witness :
  (forall a b, closed_zero_run [0; 0] a b -> (Z.of_nat (b - a) <= 0)%Z) /\
  construct_program_scenes_without_structure [0; 0] 0 8000 [15; 30] = Err IndexError.
Proof.
  assert (Hnone : forall a b, closed_zero_run [0; 0] a b -> (Z.of_nat (b - a) <= 0)%Z).
  { intros a b [_ [_ [[x [Hx Hnz]] _]]].
    destruct b as [|[|b]]; simpl in Hx; [| |destruct b; discriminate];
      injection Hx as <-; discriminate. }
  split; [exact Hnone|].
  exact (proj2 (proj2 (no_silent_section_index_error [0; 0] 0 8000
                         [cm30_structure] 15 false [15; 30] [15; 30] Hnone))).
Defined.

(** * Further properties of the code *)

(** ** Constructors: [SilentSection], [FrameLoudness], [NominalCMStructure] *)

Lemma div_lt_mono (x y fps : Q) : 0 < fps -> x < y -> x / fps < y / fps.
Proof.
  intros Hf Hxy. unfold Qdiv. apply Qmult_lt_r; [apply Qinv_lt_0_compat; exact Hf|exact Hxy].
Qed.

Lemma div_nonneg (x fps : Q) : 0 < fps -> 0 <= x -> 0 <= x / fps.
Proof.
  intros Hf Hx. unfold Qdiv. apply Qmult_le_0_compat; [exact Hx|].
  apply Qinv_le_0_compat. apply Qlt_le_weak. exact Hf.
Qed.

Lemma qlt_false (a b : Q) : qlt a b = false <-> b <= a.
Proof.
  unfold qlt. rewrite negb_false_iff. apply Qle_bool_iff.
Qed.

Lemma qle_false (a b : Q) : qle a b = false <-> b < a.
Proof.
  split.
  - intro H. apply Qnot_le_lt. intro H'. apply qle_true in H'. congruence.
  - intro H. destruct (qle a b) eqn:E; [|reflexivity].
    apply qle_true in E. exfalso. exact (Qlt_not_le _ _ H E).
Qed.

(** The checks of [SilentSection.__init__] that follow its type tests. *)
Lemma SilentSection_init_facts (a b : Z) (fps : Q) :
  match SilentSection_init a b fps with
  | Ok s => (0 <= a < b)%Z /\ 0 < fps /\
            s = mkSilent fps (Z2Q a / fps) (Z2Q b / fps) /\
            duration_sec s == (Z2Q b - Z2Q a) / fps /\ 0 < duration_sec s
  | Err e => e = ValueError /\ ~ ((0 <= a < b)%Z /\ 0 < fps)
  end.
Proof.
  unfold SilentSection_init.
  destruct (Z.ltb_spec a 0) as [H1|H1]; [split; [reflexivity|lia]|].
  destruct (Z.leb_spec b 0) as [H2|H2]; [split; [reflexivity|lia]|].
  destruct (Z.leb_spec b a) as [H3|H3]; [split; [reflexivity|lia]|].
  destruct (qle fps 0) eqn:Ef.
  - apply qle_true in Ef. split; [reflexivity|].
    intros [_ Hf]. exact (Qlt_not_le _ _ Hf Ef).
  - apply qle_false in Ef. split; [lia|]. split; [exact Ef|]. split; [reflexivity|].
    unfold duration_sec; simpl. split.
    + unfold Qdiv. ring.
    + apply (proj1 (Qlt_minus_iff (Z2Q a / fps) (Z2Q b / fps))). apply div_lt_mono; [exact Ef|].
      unfold Z2Q. rewrite <- Zlt_Qlt. lia.
Qed.

(** [SilentSection.__init__] accepts exactly two [int] frame indices
    with [0 <= start < end] and a positive frame rate, and then stores
    both edges divided by the rate, so that [duration_sec] is positive;
    a frame index that is not an [int] raises [TypeError] (the start
    index is tested first, the end index after the start's sign), and
    every other rejection is a [ValueError]. *)
Theorem SilentSection_new_spec (x y : pyval) (fps : Q) :
  match SilentSection_new x y fps with
  | Ok s => exists a b, x = PInt a /\ y = PInt b /\ (0 <= a < b)%Z /\ 0 < fps /\
            s = mkSilent fps (Z2Q a / fps) (Z2Q b / fps) /\
            duration_sec s == (Z2Q b - Z2Q a) / fps /\ 0 < duration_sec s
  | Err TypeError => (forall a, x <> PInt a) \/
                     (exists a, x = PInt a /\ (0 <= a)%Z /\ forall b, y <> PInt b)
  | Err ValueError => exists a, x = PInt a /\
                      ((a < 0)%Z \/ exists b, y = PInt b /\ ~ ((0 <= a < b)%Z /\ 0 < fps))
  | Err _ => False
  end.
Proof.
  destruct x as [a|q|]; simpl; [|left; intros a H; discriminate|left; intros a H; discriminate].
  destruct (Z.ltb_spec a 0) as [Ha|Ha]; [exists a; auto|].
  destruct y as [b|q|]; [|right; exists a; split; [reflexivity|]; split; [lia|intros b H; discriminate]
                       |right; exists a; split; [reflexivity|]; split; [lia|intros b H; discriminate]].
  pose proof (SilentSection_init_facts a b fps) as H.
  destruct (SilentSection_init a b fps) as [sec|e].
  - destruct H as [Hab [Hf [Hs [Hd Hp]]]]. exists a, b. auto 7.
  - destruct H as [-> Hn]. exists a. split; [reflexivity|]. right. exists b. auto.
Qed.

Lemma filter_all_true {A} (f : A -> bool) (l : list A) :
  (forall x, In x l -> f x = true) -> filter f l = l.
Proof.
  induction l as [|y t IH]; intro H; simpl; [reflexivity|].
  rewrite (H y (or_introl eq_refl)). f_equal. apply IH. intros x Hx. apply H. right. exact Hx.
Qed.

Lemma map_float_value (l : list pyval) :
  (forall x, In x l -> is_float x = true) -> map PFloat (map float_value l) = l.
Proof.
  induction l as [|y t IH]; intro H; simpl; [reflexivity|].
  f_equal; [|apply IH; intros x Hx; apply H; right; exact Hx].
  specialize (H y (or_introl eq_refl)). destruct y; [discriminate|reflexivity|discriminate].
Qed.

(** [FrameLoudness.__init__] accepts exactly the non-empty lists of
    [float]s with no negative sample (zero, silence, is accepted) and
    keeps them as given; an empty list, an element that is not a
    [float] (an [int] such as [0] included) or a negative sample raises
    [TypeError], never [ValueError]. *)
Theorem FrameLoudness_init_spec (l : list pyval) :
  match FrameLoudness_init l with
  | Ok f => l <> [] /\ map PFloat (values f) = l /\ Forall (fun x => 0 <= x) (values f)
  | Err e => e = TypeError /\
             (l = [] \/ (exists v, In v l /\ is_float v = false) \/
              exists q, In (PFloat q) l /\ q < 0)
  end.
Proof.
  unfold FrameLoudness_init.
  destruct l as [|v l]; [split; [reflexivity|left; reflexivity]|].
  change ((length (v :: l) <=? 0)%nat) with false. cbv beta iota zeta.
  set (L := v :: l).
  destruct (existsb (fun x => negb (is_float x)) L) eqn:Ex.
  - apply existsb_exists in Ex as [x [Hx Hnf]]. apply negb_true_iff in Hnf.
    assert (Hlt : length (filter is_float L) <> length L).
    { clearbody L. clear v l. induction L as [|y t IH]; [destruct Hx|]. simpl.
      destruct Hx as [<-|Hx].
      - rewrite Hnf. pose proof (filter_length_le is_float t). lia.
      - destruct (is_float y); simpl; [specialize (IH Hx); lia|].
        pose proof (filter_length_le is_float t). lia. }
    apply Nat.eqb_neq in Hlt. rewrite Hlt. simpl.
    split; [reflexivity|]. right. left. exists x. auto.
  - assert (Hall : forall x, In x L -> is_float x = true).
    { intros x Hx. destruct (is_float x) eqn:E; [reflexivity|].
      assert (Ht : existsb (fun x => negb (is_float x)) L = true)
        by (apply existsb_exists; exists x; rewrite E; auto).
      congruence. }
    rewrite (filter_all_true is_float L Hall), Nat.eqb_refl. cbn [negb].
    destruct (Nat.ltb_spec 0 (length (filter (fun x => qlt (float_value x) 0) L))) as [Hn|Hn].
    + split; [reflexivity|]. right. right.
      destruct (filter (fun x => qlt (float_value x) 0) L) as [|x xs] eqn:E;
        [simpl in Hn; lia|].
      assert (Hx : In x (filter (fun x => qlt (float_value x) 0) L))
        by (rewrite E; left; reflexivity).
      apply filter_In in Hx as [Hx Hlt]. apply qlt_true in Hlt.
      pose proof (Hall x Hx) as Hf. destruct x as [z|q|]; try discriminate.
      exists q. auto.
    + split; [discriminate|]. split; [exact (map_float_value L Hall)|].
      apply Forall_forall. intros y Hy. apply in_map_iff in Hy as [x [<- Hx]].
      destruct (qlt (float_value x) 0) eqn:E; [|apply qlt_false; exact E].
      assert (Hin : In x (filter (fun x => qlt (float_value x) 0) L)) by (apply filter_In; auto).
      destruct (filter (fun x => qlt (float_value x) 0) L); [destruct Hin|simpl in Hn; lia].
Qed.

Definition structure_entry_ok (kv : string * Q) : Prop :=
  (fst kv = "cm"%string \/ fst kv = "scene"%string \/ fst kv = "monolithic_cm"%string) /\
  0 < snd kv.

Fixpoint values_sum (c : composition) : Q :=
  match c with [] => 0 | kv :: c' => snd kv + values_sum c' end.

Lemma structure_sum_spec (c : composition) :
  forall acc,
  match structure_sum acc c with
  | Ok n => n == acc + values_sum c /\ Forall structure_entry_ok c
  | Err _ => ~ Forall structure_entry_ok c
  end.
Proof.
  induction c as [|[k v] c IH]; intro acc; simpl.
  - split; [ring|constructor].
  - destruct (String.eqb_spec k "cm"), (String.eqb_spec k "scene"),
      (String.eqb_spec k "monolithic_cm"); simpl;
      try (intro H; inversion H as [|? ? [Hk _] _]; simpl in Hk; tauto).
    all: destruct (qle v 0) eqn:Ev;
      [apply qle_true in Ev; intro H; inversion H as [|? ? [_ Hv] _];
       exact (Qlt_not_le _ _ Hv Ev)|apply qle_false in Ev].
    all: specialize (IH (acc + v)); destruct (structure_sum (acc + v) c);
      [destruct IH as [Hn Hf]; split; [rewrite Hn; ring|constructor; [|exact Hf]];
       split; [simpl; tauto|exact Ev]
      |intro H; inversion H; contradiction].
Qed.

Lemma values_sum_pos (c : composition) :
  c <> [] -> Forall structure_entry_ok c -> 0 < values_sum c.
Proof.
  induction c as [|kv c IH]; intros Hne Hf; [congruence|].
  inversion Hf as [|? ? [_ Hv] Hf']. simpl.
  destruct c as [|kv' c].
  - simpl. rewrite Qplus_0_r. exact Hv.
  - apply Qlt_le_trans with (snd kv + 0); [rewrite Qplus_0_r; exact Hv|].
    apply Qplus_le_r. apply Qlt_le_weak. apply IH; [discriminate|exact Hf'].
Qed.

(** [NominalCMStructure.__init__] accepts exactly the compositions of
    one or two entries (not a lone ["scene"]) whose keys are ["cm"],
    ["scene"] or ["monolithic_cm"] with positive values, together with a
    positive margin; it keeps both, and the nominal duration is the sum
    of the values, hence positive. *)
Theorem NominalCMStructure_init_spec (c : composition) (margin : Q) :
  let valid := (1 <= length c <= 2)%nat /\
               ~ (length c = 1%nat /\ has_key "scene" c = true) /\
               Forall structure_entry_ok c /\ 0 < margin in
  match NominalCMStructure_init c margin with
  | Ok t => valid /\ comp t = c /\ margin_sec t = margin /\
            nominal_duration t == values_sum c /\ 0 < nominal_duration t
  | Err _ => ~ valid
  end.
Proof.
  intro valid. subst valid. unfold NominalCMStructure_init.
  destruct (Nat.ltb_spec 2 (length c)) as [Hl|Hl]; [intros [H _]; lia|].
  destruct ((length c =? 1)%nat && has_key "scene" c) eqn:Hs.
  { apply andb_true_iff in Hs as [H1 H2]. apply Nat.eqb_eq in H1. tauto. }
  destruct (Nat.eqb_spec (length c) 0) as [H0|H0]; [intros [H _]; lia|].
  pose proof (structure_sum_spec c 0) as Hsum.
  destruct (structure_sum 0 c) as [n|e]; simpl; [|tauto].
  destruct Hsum as [Hn Hf].
  destruct (qle margin 0) eqn:Em.
  - apply qle_true in Em. intros [_ [_ [_ Hm]]]. exact (Qlt_not_le _ _ Hm Em).
  - apply qle_false in Em.
    assert (Hne : c <> []) by (intro; subst; simpl in *; lia).
    split; [|split; [reflexivity|split; [reflexivity|]]].
    + split; [lia|]. split; [|split; [exact Hf|exact Em]].
      intros [H1 H2]. rewrite <- Nat.eqb_eq in H1. rewrite H1, H2 in Hs. discriminate.
    + simpl. rewrite Hn, Qplus_0_l. split; [reflexivity|].
      apply values_sum_pos; assumption.
Qed.

(** For an accepted structure, [get_actual_cm_section] cuts the scene
    component off the side where the composition lists it: a leading
    ["scene"] of [a] seconds moves the start right by [a], a trailing
    one moves the end left by [a]; a one-entry structure returns the
    edges unchanged. *)
Theorem get_actual_cm_section_scene_cut (c : composition) (margin : Q)
    (t : NominalCMStructure) (Ht : NominalCMStructure_init c margin = Ok t) :
  forall l r,
  (length c = 1%nat -> get_actual_cm_section t l r = Some (l, r)) /\
  (forall a kv, c = [("scene"%string, a); kv] ->
     get_actual_cm_section t l r = Some (l + a, r)) /\
  (forall a kv, c = [kv; ("scene"%string, a)] -> fst kv <> "scene"%string ->
     get_actual_cm_section t l r = Some (l, r - a)).
Proof.
  pose proof (NominalCMStructure_init_spec c margin) as H. simpl in H.
  rewrite Ht in H. destruct H as [_ [Hc _]].
  intros l r. unfold get_actual_cm_section. rewrite Hc. split; [|split].
  - intro H1. rewrite H1. reflexivity.
  - intros a kv ->. reflexivity.
  - intros a [k v] -> Hk. simpl in Hk. simpl.
    apply String.eqb_neq in Hk. rewrite Hk. reflexivity.
Qed.

(** [{'scene': 30, 'cm': 60}] and [{'cm': 60, 'scene': 30}] with margin
    2, between the edges 100 and 200. *)
Lemma get_actual_cm_section_scene_cut_witness :
  get_actual_cm_section (mkStructure [("scene"%string, 30); ("cm"%string, 60)] 90 2) 100 200
    = Some (130, 200) /\
  get_actual_cm_section (mkStructure [("cm"%string, 60); ("scene"%string, 30)] 90 2) 100 200
    = Some (100, 170).
Proof.
  assert (H1 : NominalCMStructure_init [("scene"%string, 30); ("cm"%string, 60)] 2
               = Ok (mkStructure [("scene"%string, 30); ("cm"%string, 60)] 90 2))
    by (vm_compute; reflexivity).
  assert (H2 : NominalCMStructure_init [("cm"%string, 60); ("scene"%string, 30)] 2
               = Ok (mkStructure [("cm"%string, 60); ("scene"%string, 30)] 90 2))
    by (vm_compute; reflexivity).
  split.
  - exact (proj1 (proj2 (get_actual_cm_section_scene_cut _ _ _ H1 100 200)) 30 _ eq_refl).
  - refine (proj2 (proj2 (get_actual_cm_section_scene_cut _ _ _ H2 100 200)) 30 _ eq_refl _).
    discriminate.
Defined.

(** ** DurationSecUnits: constructor, [append_duration], [remove_duration] *)

(** No two entries are equal as numbers. *)
Fixpoint distinct (l : list Q) : Prop :=
  match l with
  | [] => True
  | x :: t => (forall y, In y t -> ~ y == x) /\ distinct t
  end.

Lemma distinct_snoc (l : list Q) (v : Q) :
  distinct l -> (forall y, In y l -> ~ y == v) -> distinct (l ++ [v]).
Proof.
  induction l as [|x t IH]; intros Hd Hv; simpl.
  - split; [intros y []|exact I].
  - destruct Hd as [Hx Ht]. split.
    + intros y Hy. apply in_app_or in Hy as [Hy|[<-|[]]]; [exact (Hx y Hy)|].
      intro He. apply (Hv x (or_introl eq_refl)). symmetry. exact He.
    + apply IH; [exact Ht|]. intros y Hy. apply Hv. right. exact Hy.
Qed.

Lemma qeq_true (a b : Q) : qeq a b = true <-> a == b.
Proof. apply Qeq_bool_iff. Qed.

Lemma qeq_false (a b : Q) : qeq a b = false <-> ~ a == b.
Proof.
  split.
  - intros H He. apply qeq_true in He. congruence.
  - intro H. destruct (qeq a b) eqn:E; [|reflexivity]. apply qeq_true in E. contradiction.
Qed.

Lemma q_in_true (x : Q) (l : list Q) : q_in x l = true <-> exists w, In w l /\ w == x.
Proof.
  unfold q_in. rewrite existsb_exists. split.
  - intros [w [Hw He]]. apply qeq_true in He. exists w. split; [exact Hw|symmetry; exact He].
  - intros [w [Hw He]]. exists w. split; [exact Hw|]. apply qeq_true. symmetry. exact He.
Qed.

Lemma q_in_false (x : Q) (l : list Q) : q_in x l = false -> forall y, In y l -> ~ y == x.
Proof.
  intros H y Hy He. assert (Ht : q_in x l = true) by (apply q_in_true; eauto).
  congruence.
Qed.

Lemma units_collect_spec (vals : list Q) :
  forall acc, distinct acc ->
  match units_collect acc vals with
  | Ok l => Forall (fun v => 0 < v) vals /\ distinct l /\ (forall x, In x acc -> In x l) /\
            (forall x, In x l -> In x acc \/ In x vals) /\
            (forall v, In v vals -> exists w, In w l /\ w == v)
  | Err e => e = ValueError /\ Exists (fun v => v <= 0) vals
  end.
Proof.
  induction vals as [|v vs IH]; intros acc Hd; simpl.
  - split; [constructor|]. split; [exact Hd|]. split; [auto|]. split; [auto|intros v []].
  - destruct (qle v 0) eqn:Ev.
    + split; [reflexivity|]. left. apply qle_true. exact Ev.
    + set (acc' := if q_in v acc then acc else acc ++ [v]).
      assert (Hd' : distinct acc').
      { subst acc'. destruct (q_in v acc) eqn:Ei; [exact Hd|].
        apply distinct_snoc; [exact Hd|exact (q_in_false v acc Ei)]. }
      assert (Hsub : forall x, In x acc -> In x acc').
      { subst acc'. intros x Hx. destruct (q_in v acc); [exact Hx|].
        apply in_or_app. left. exact Hx. }
      assert (Hv : exists w, In w acc' /\ w == v).
      { subst acc'. destruct (q_in v acc) eqn:Ei; [apply q_in_true; exact Ei|].
        exists v. split; [apply in_or_app; right; left; reflexivity|reflexivity]. }
      assert (Hback : forall x, In x acc' -> In x acc \/ x = v).
      { subst acc'. intros x Hx. destruct (q_in v acc); [left; exact Hx|].
        apply in_app_or in Hx as [Hx|[<-|[]]]; [left; exact Hx|right; reflexivity]. }
      specialize (IH acc' Hd'). destruct (units_collect acc' vs) as [l|e].
      * destruct IH as [Hp [Hdl [Hs [Hb Hw]]]].
        split; [constructor; [apply qle_false; exact Ev|exact Hp]|].
        split; [exact Hdl|]. split; [auto|]. split.
        -- intros x Hx. destruct (Hb x Hx) as [Hx'|Hx'].
           ++ destruct (Hback x Hx') as [H| ->]; [left; exact H|right; left; reflexivity].
           ++ right. right. exact Hx'.
        -- intros u [<-|Hu]; [|exact (Hw u Hu)].
           destruct Hv as [w [Hw' He]]. exists w. auto.
      * destruct IH as [He Hex]. split; [exact He|]. right. exact Hex.
Qed.

Lemma insert_sorted_In (x y : Q) (l : list Q) : In y (insert_sorted x l) <-> x = y \/ In y l.
Proof.
  induction l as [|z zs IH]; simpl; [tauto|].
  destruct (qlt x z); simpl; [tauto|]. rewrite IH. tauto.
Qed.

Lemma sorted_In (y : Q) (l : list Q) : In y (sorted l) <-> In y l.
Proof.
  induction l as [|x t IH]; simpl; [tauto|].
  rewrite insert_sorted_In, IH. split; intros [H|H]; auto.
Qed.

Lemma insert_sorted_hd (x y : Q) (l : list Q) :
  HdRel Qlt y l -> y < x -> HdRel Qlt y (insert_sorted x l).
Proof.
  intros Hh Hyx. destruct l as [|z zs]; simpl.
  - constructor. exact Hyx.
  - destruct (qlt x z); constructor; [exact Hyx|]. inversion Hh. assumption.
Qed.

Lemma insert_sorted_lt (x : Q) (l : list Q) :
  Sorted Qlt l -> (forall y, In y l -> ~ y == x) -> Sorted Qlt (insert_sorted x l).
Proof.
  induction l as [|z zs IH]; intros Hs Hne; simpl.
  - repeat constructor.
  - destruct (qlt x z) eqn:E.
    + constructor; [exact Hs|]. constructor. apply qlt_true. exact E.
    + apply qlt_false in E. apply Sorted_inv in Hs as [Hs Hh].
      assert (Hzx : z < x).
      { apply Qle_lt_or_eq in E as [E|E]; [exact E|].
        exfalso. apply (Hne z (or_introl eq_refl)). exact E. }
      constructor.
      * apply IH; [exact Hs|]. intros y Hy. apply Hne. right. exact Hy.
      * apply insert_sorted_hd; assumption.
Qed.

Lemma sorted_lt (l : list Q) : distinct l -> Sorted Qlt (sorted l).
Proof.
  induction l as [|x t IH]; intros Hd; simpl; [constructor|].
  destruct Hd as [Hx Ht]. apply insert_sorted_lt; [exact (IH Ht)|].
  intros y Hy. apply (proj1 (sorted_In y t)) in Hy. exact (Hx y Hy).
Qed.

Lemma In_15_30_distinct : distinct [15; 30].
Proof.
  simpl. split; [|split; [intros y []|exact I]].
  intros y [<-|[]]. discriminate.
Qed.

(** What [DurationSecUnits(vals)] builds, stated once for the three
    methods that construct one. *)
Lemma DurationSecUnits_init_facts (vals : list Q) :
  match DurationSecUnits_init vals with
  | Ok u => Forall (fun v => 0 < v) vals /\ Sorted Qlt (durations_sec u) /\
            In 15 (durations_sec u) /\ In 30 (durations_sec u) /\
            (forall v, In v vals -> exists w, In w (durations_sec u) /\ w == v) /\
            (forall w, In w (durations_sec u) -> w = 15 \/ w = 30 \/ In w vals)
  | Err e => e = ValueError /\ Exists (fun v => v <= 0) vals
  end.
Proof.
  unfold DurationSecUnits_init. destruct vals as [|v0 vs] eqn:Hv.
  - simpl. split; [constructor|]. split; [repeat constructor|]. split; [left; reflexivity|].
    split; [right; left; reflexivity|]. split; [intros v []|].
    intros w [<-|[<-|[]]]; auto.
  - rewrite <- Hv. pose proof (units_collect_spec vals [15; 30] In_15_30_distinct) as H.
    destruct (units_collect [15; 30] vals) as [l|e]; simpl; [|exact H].
    destruct H as [Hp [Hd [Hs [Hb Hw]]]]. split; [exact Hp|]. split; [apply sorted_lt; exact Hd|].
    split; [apply (proj2 (sorted_In _ l)); apply Hs; left; reflexivity|].
    split; [apply (proj2 (sorted_In _ l)); apply Hs; right; left; reflexivity|]. split.
    + intros v Hin. destruct (Hw v Hin) as [w [Hw' He]]. exists w.
      split; [apply (proj2 (sorted_In _ l)); exact Hw'|exact He].
    + intros w Hin. apply (proj1 (sorted_In w l)) in Hin. destruct (Hb w Hin) as [[<-|[<-|[]]]|H'];
        auto.
Qed.

(** [DurationSecUnits(vals)] raises [ValueError] exactly when some value
    is not positive; otherwise its [durations_sec] is strictly
    ascending (sorted, no value twice), always holds [15] and [30], holds
    a value equal to each input, and nothing else. *)
Theorem DurationSecUnits_init_spec (vals : list Q) :
  match DurationSecUnits_init vals with
  | Ok u => Forall (fun v => 0 < v) vals /\ Sorted Qlt (durations_sec u) /\
            In 15 (durations_sec u) /\ In 30 (durations_sec u) /\
            (forall v, In v vals -> exists w, In w (durations_sec u) /\ w == v) /\
            (forall w, In w (durations_sec u) -> w = 15 \/ w = 30 \/ In w vals)
  | Err e => e = ValueError /\ Exists (fun v => v <= 0) vals
  end.
Proof. exact (DurationSecUnits_init_facts vals). Qed.

Lemma qeq_sym (a b : Q) : qeq a b = qeq b a.
Proof.
  destruct (qeq b a) eqn:E.
  - apply qeq_true in E. apply qeq_true. symmetry. exact E.
  - apply qeq_false in E. apply qeq_false. intro H. apply E. symmetry. exact H.
Qed.

(** [append_duration(d)] always leaves [self.durations_sec] extended by
    [d] (also when [d] is already a unit, and before validation can
    fail); the returned object is then [DurationSecUnits] of that list:
    strictly ascending, with [15], [30], [d] and every former unit, or
    [ValueError] when some value of the list is not positive. *)
Theorem append_duration_spec (d : Q) (s : store) :
  snd (append_duration d s) = s ++ [d] /\
  match fst (append_duration d s) with
  | Ok u => Forall (fun v => 0 < v) (s ++ [d]) /\ Sorted Qlt (durations_sec u) /\
            In 15 (durations_sec u) /\ In 30 (durations_sec u) /\
            (exists w, In w (durations_sec u) /\ w == d) /\
            (forall x, In x s -> exists w, In w (durations_sec u) /\ w == x)
  | Err e => e = ValueError /\ Exists (fun v => v <= 0) (s ++ [d])
  end.
Proof.
  split; [reflexivity|]. unfold append_duration. simpl.
  pose proof (DurationSecUnits_init_facts (sorted (s ++ [d]))) as H.
  destruct (DurationSecUnits_init (sorted (s ++ [d]))) as [u|e].
  - destruct H as [Hp [Hs [H15 [H30 [Hw _]]]]].
    split; [|split; [exact Hs|split; [exact H15|split; [exact H30|split]]]].
    + apply Forall_forall. intros v Hv. rewrite Forall_forall in Hp.
      apply Hp. apply (proj2 (sorted_In v (s ++ [d]))). exact Hv.
    + apply Hw. apply (proj2 (sorted_In d (s ++ [d]))).
      apply in_or_app. right. left. reflexivity.
    + intros x Hx. apply Hw. apply (proj2 (sorted_In x (s ++ [d]))).
      apply in_or_app. left. exact Hx.
  - destruct H as [He Hex]. split; [exact He|].
    apply Exists_exists in Hex as [v [Hv Hle]]. apply Exists_exists.
    exists v. split; [apply (proj1 (sorted_In v (s ++ [d]))); exact Hv|exact Hle].
Qed.

Lemma remove_first_absent (d : Q) (s : list Q) : q_in d s = false -> remove_first d s = s.
Proof.
  induction s as [|y ys IH]; intro H; simpl; [reflexivity|].
  unfold q_in in H. simpl in H. apply orb_false_iff in H as [Hy Hys].
  rewrite qeq_sym, Hy. f_equal. apply IH. exact Hys.
Qed.

Lemma remove_first_length (d : Q) (s : list Q) :
  q_in d s = true -> S (length (remove_first d s)) = length s.
Proof.
  induction s as [|y ys IH]; intro H; [discriminate|]. simpl.
  unfold q_in in H. simpl in H. rewrite qeq_sym in H.
  destruct (qeq y d) eqn:E; [reflexivity|]. simpl in H.
  simpl. f_equal. apply IH. exact H.
Qed.

(** [remove_duration(d)] removes the first unit equal to [d] from the
    caller's own [durations_sec] (one element fewer when [d] is present,
    unchanged otherwise), and returns [DurationSecUnits] of what is
    left, which always holds [15] and [30]: removing [15] or [30]
    shrinks the caller's list but not the returned unit set. *)
Theorem remove_duration_spec (d : Q) (s : store) :
  snd (remove_duration d s) = remove_first d s /\
  length (remove_first d s) = (if q_in d s then pred (length s) else length s) /\
  match fst (remove_duration d s) with
  | Ok u => Sorted Qlt (durations_sec u) /\ In 15 (durations_sec u) /\ In 30 (durations_sec u) /\
            (forall w, In w (durations_sec u) -> w = 15 \/ w = 30 \/ In w (remove_first d s))
  | Err e => e = ValueError
  end.
Proof.
  unfold remove_duration. simpl.
  destruct (q_in d s) eqn:Ei.
  - split; [reflexivity|]. split; [rewrite <- (remove_first_length d s Ei); reflexivity|].
    pose proof (DurationSecUnits_init_facts (remove_first d s)) as H.
    destruct (DurationSecUnits_init (remove_first d s)); [|exact (proj1 H)].
    destruct H as [_ [Hs [H15 [H30 [_ Hb]]]]]. auto.
  - rewrite (remove_first_absent d s Ei). split; [reflexivity|]. split; [reflexivity|].
    pose proof (DurationSecUnits_init_facts s) as H.
    destruct (DurationSecUnits_init s); [|exact (proj1 H)].
    destruct H as [_ [Hs [H15 [H30 [_ Hb]]]]]. auto.
Qed.

(** ** extract_silent_sections: layout of the result and the frame rate *)

Lemma Sorted_map_mono {A B} (f : A -> B) (R : A -> A -> Prop) (R' : B -> B -> Prop)
    (l : list A) :
  (forall a b, R a b -> R' (f a) (f b)) -> Sorted R l -> Sorted R' (map f l).
Proof.
  intros Hf Hs. induction Hs as [|a l Hs IH Hh]; simpl; constructor; [exact IH|].
  destruct Hh; simpl; constructor. apply Hf. assumption.
Qed.

Lemma nat_div_lt (a b : nat) (fps : Q) :
  0 < fps -> (a < b)%nat -> Z2Q (Z.of_nat a) / fps < Z2Q (Z.of_nat b) / fps.
Proof.
  intros Hf Hab. apply div_lt_mono; [exact Hf|]. unfold Z2Q. rewrite <- Zlt_Qlt. lia.
Qed.

(** For a positive frame rate the sections are ascending and pairwise
    disjoint (each ends strictly before the next starts), each has a
    positive duration, and all lie inside the recording, [0] to
    [len(loudness.values) / frame_per_sec] (the end frame is a non-zero
    frame of the sequence). *)
Theorem extract_silent_sections_layout (l : list Q) (thr : Z) (fps : Q) (Hfps : 0 < fps) :
  exists secs,
    extract_silent_sections l thr fps = Ok secs /\
    Forall (fun s => frame_per_sec s = fps /\ 0 <= start_sec s /\ start_sec s < end_sec s /\
                     end_sec s < Z2Q (Z.of_nat (length l)) / fps) secs /\
    Sorted (fun s1 s2 => end_sec s1 < start_sec s2) secs.
Proof.
  exists (map (section_of fps) (run_frames thr 0 l 0 (-1) 0)). split; [|split].
  - unfold extract_silent_sections.
    exact (extract_loop_frames fps thr Hfps l 0 [] 0 (-1) 0 (proj1 (frame_inv_initial l))).
  - apply Forall_forall. intros s Hs. apply in_map_iff in Hs as [[a b] [<- Hin]].
    apply extract_frames_spec in Hin as [[Hab [_ [Hb _]]] _].
    apply nonzero_bound in Hb. unfold section_of; simpl.
    split; [reflexivity|]. split; [|split; apply nat_div_lt; assumption].
    apply div_nonneg; [exact Hfps|]. unfold Z2Q. change (inject_Z 0 <= inject_Z (Z.of_nat a)). rewrite <- Zle_Qle. lia.
  - apply (Sorted_map_mono (section_of fps) (fun p q => (snd p < fst q)%nat)).
    + intros [a b] [c e] H. simpl in H |- *. apply nat_div_lt; assumption.
    + apply run_frames_sorted. exact (proj1 (frame_inv_initial l)).
Qed.

(** Three frames per second: silences [0,2) and [3,5) in frames. *)
Lemma extract_silent_sections_layout_witness :
  0 < 3 /\
  extract_silent_sections [0; 0; 1; 0; 0; 1] 1 3 = Ok [mkSilent 3 (0 # 3) (2 # 3); mkSilent 3 (3 # 3) (5 # 3)] /\
  exists secs,
    extract_silent_sections [0; 0; 1; 0; 0; 1] 1 3 = Ok secs /\
    Forall (fun s => frame_per_sec s = 3 /\ 0 <= start_sec s /\ start_sec s < end_sec s /\
                     end_sec s < Z2Q (Z.of_nat 6) / 3) secs /\
    Sorted (fun s1 s2 => end_sec s1 < start_sec s2) secs.
Proof.
  assert (H : 0 < 3) by reflexivity.
  split; [exact H|]. split; [vm_compute; reflexivity|].
  exact (extract_silent_sections_layout [0; 0; 1; 0; 0; 1] 1 3 H).
Defined.

Lemma extract_loop_nonpositive (fps : Q) (thr : Z) (Hfps : fps <= 0) (vals : list Q) :
  forall idx acc dur last start,
  frame_inv0 idx dur last start ->
  extract_loop fps thr idx vals acc dur last start
    = match run_frames thr idx vals dur last start with
      | [] => Ok acc
      | _ :: _ => Err ValueError
      end.
Proof.
  induction vals as [|x xs IH]; intros idx acc dur last start Hinv; [reflexivity|].
  simpl. destruct (qeq x 0) eqn:Ex.
  - apply IH. apply frame_inv0_zero; assumption.
  - pose proof (frame_inv0_nonzero idx dur last x start Ex) as Hinv'.
    destruct (Nat.ltb_spec 0 dur) as [Hd|Hd]; [|apply IH; exact Hinv'].
    destruct (thr <? Z.of_nat dur)%Z; [|apply IH; exact Hinv'].
    destruct Hinv as [_ Hst]. specialize (Hst Hd).
    unfold SilentSection_init.
    replace (Z.of_nat start <? 0)%Z with false by (symmetry; apply Z.ltb_ge; lia).
    replace (Z.of_nat idx <=? 0)%Z with false by (symmetry; apply Z.leb_gt; lia).
    replace (Z.of_nat idx <=? Z.of_nat start)%Z with false
      by (symmetry; apply Z.leb_gt; lia).
    replace (qle fps 0) with true by (symmetry; apply qle_true; exact Hfps).
    reflexivity.
Qed.

(** With [frame_per_sec <= 0] the rate is only checked when a
    [SilentSection] is built: [extract_silent_sections] returns [[]]
    when no zero run qualifies, and raises [ValueError] as soon as one
    does. *)
Theorem extract_silent_sections_nonpositive_rate (l : list Q) (thr : Z) (fps : Q)
    (Hfps : fps <= 0) :
  match extract_silent_sections l thr fps with
  | Ok secs => secs = [] /\
               forall a b, closed_zero_run l a b -> (Z.of_nat (b - a) <= thr)%Z
  | Err e => e = ValueError /\
             exists a b, closed_zero_run l a b /\ (thr < Z.of_nat (b - a))%Z
  end.
Proof.
  unfold extract_silent_sections.
  rewrite (extract_loop_nonpositive fps thr Hfps l 0 [] 0 (-1) 0 (proj1 (frame_inv_initial l))).
  destruct (run_frames thr 0 l 0 (-1) 0) as [|[a b] F] eqn:E.
  - split; [reflexivity|]. intros a b Hc.
    destruct (Z_lt_le_dec thr (Z.of_nat (b - a))) as [Ht|Ht]; [exfalso|exact Ht].
    assert (Hin : In (a, b) (run_frames thr 0 l 0 (-1) 0))
      by (apply extract_frames_spec; auto).
    rewrite E in Hin. destruct Hin.
  - split; [reflexivity|]. exists a, b. apply extract_frames_spec.
    rewrite E. left. reflexivity.
Qed.

(** A rate of [0]: the frames [0; 1] raise, the frames [1; 0] (no closed
    silence) do not. *)
Lemma extract_silent_sections_nonpositive_rate_witness :
  0 <= 0 /\
  extract_silent_sections [0; 1] 0 0 = Err ValueError /\
  extract_silent_sections [1; 0] 0 0 = Ok [] /\
  ValueError = ValueError /\
  (exists a b, closed_zero_run [0; 1] a b /\ (0 < Z.of_nat (b - a))%Z).
Proof.
  assert (H : 0 <= 0) by (apply Qle_refl).
  split; [exact H|]. split; [vm_compute; reflexivity|].
  split; [vm_compute; reflexivity|].
  exact (extract_silent_sections_nonpositive_rate [0; 1] 0 0 H).
Defined.

(** ** search_cm_sections *)

Lemma last_In_cons {A} (x : A) (xs : list A) (d : A) : In (last (x :: xs) d) (x :: xs).
Proof.
  revert x. induction xs as [|y ys IH]; intro x; [left; reflexivity|].
  right. apply IH.
Qed.

Lemma is_cm_divider_candidate_total (s : SilentSection) (fs : list SilentSection)
    (U : list Q) (m : Q) :
  U <> [] -> exists b, is_cm_divider_candidate s fs U m = Ok b.
Proof.
  intro HU. destruct U as [|u U']; [congruence|].
  induction fs as [|f fs IH]; simpl; [eauto|].
  rewrite last_elem_last. simpl.
  repeat match goal with |- context [if ?c then _ else _] => destruct c end; eauto.
Qed.

(** A pair [(first.end_sec, last.start_sec)] of two silences of [full]. *)
Definition emitted_from (full : list SilentSection) (p : Q * Q) : Prop :=
  exists c0 cl, In c0 full /\ In cl full /\ p = (end_sec c0, start_sec cl).

Lemma search_loop_spec (units : list Q) (full : list SilentSection) (HU : units <> [])
    (secs : list SilentSection) :
  forall cands cms cont,
  (forall x, In x secs -> In x full) -> (forall x, In x cands -> In x full) ->
  (forall p, In p cms -> emitted_from full p) ->
  exists cands' cms',
    search_loop units secs cands cms cont = Ok (cands', cms') /\
    (2 * length cms' + length cands' <= 2 * length cms + length cands + length secs)%nat /\
    (forall x, In x cands' -> In x full) /\ (forall p, In p cms' -> emitted_from full p).
Proof.
  induction secs as [|section rest IH]; intros cands cms cont Hs Hc Hm.
  - exists cands, cms. simpl. split; [reflexivity|]. split; [lia|auto].
  - assert (Hs' : forall x, In x rest -> In x full) by (intros x Hx; apply Hs; right; exact Hx).
    destruct (is_cm_divider_candidate_total section rest units 1 HU) as [b Hb].
    cbn [search_loop]. unfold rbind at 1. rewrite Hb. destruct b.
    + destruct (IH (cands ++ [section]) cms true Hs') as [c' [m' [He [Hl [Hc' Hm']]]]].
      * intros x Hx. apply in_app_or in Hx as [Hx|[<-|[]]]; [exact (Hc x Hx)|].
        apply Hs. left. reflexivity.
      * exact Hm.
      * exists c', m'. split; [exact He|]. split; [|auto].
        rewrite length_app in Hl. simpl in Hl |- *. lia.
    + destruct (cont && (2 <=? length cands)%nat) eqn:Ec.
      * apply andb_true_iff in Ec as [_ Hlen]. apply Nat.leb_le in Hlen.
        destruct cands as [|c cs]; [simpl in Hlen; lia|]. simpl.
        rewrite last_elem_last. simpl.
        destruct (IH [] (cms ++ [(end_sec c, start_sec (last (c :: cs) c))]) false Hs')
          as [c' [m' [He [Hl [Hc' Hm']]]]].
        -- intros x [].
        -- intros p Hp. apply in_app_or in Hp as [Hp|[<-|[]]]; [exact (Hm p Hp)|].
           exists c, (last (c :: cs) c). split; [apply Hc; left; reflexivity|].
           split; [apply Hc; apply last_In_cons|reflexivity].
        -- exists c', m'. split; [exact He|]. split; [|auto].
           rewrite length_app in Hl. simpl in Hl |- *. lia.
      * destruct (IH cands cms cont Hs' Hc Hm) as [c' [m' [He [Hl [Hc' Hm']]]]].
        exists c', m'. split; [exact He|]. split; [simpl; lia|auto].
Qed.

Lemma search_cm_sections_facts (secs : list SilentSection) (units : list Q) :
  units <> [] ->
  exists cms, search_cm_sections secs units = Ok cms /\
    (2 * length cms <= length secs)%nat /\
    (forall p, In p cms -> emitted_from secs p).
Proof.
  intro HU. unfold search_cm_sections.
  destruct (search_loop_spec units secs HU secs [] [] false (fun x H => H)
              (fun x H => match H with end) (fun p H => match H with end))
    as [c' [m' [He [Hl [Hc' Hm']]]]].
  unfold rbind at 1. rewrite He. cbv beta iota.
  destruct (Nat.leb_spec 2 (length c')) as [H2|H2].
  - destruct c' as [|c cs]; [simpl in H2; lia|].
    unfold rbind. cbv beta iota. rewrite last_elem_last. cbv beta iota.
    eexists. split; [reflexivity|]. split.
    + rewrite length_app. simpl in Hl, H2 |- *. lia.
    + intros p Hp. apply in_app_or in Hp as [Hp|[<-|[]]]; [exact (Hm' p Hp)|].
      exists c, (last (c :: cs) c). split; [apply Hc'; left; reflexivity|].
      split; [apply Hc'; apply last_In_cons|reflexivity].
  - eexists. split; [reflexivity|]. split; [simpl in Hl; lia|exact Hm'].
Qed.

(** With a non-empty unit list [search_cm_sections] never raises; every
    commercial it returns is [(first.end_sec, last.start_sec)] of two
    silences of the input, and it returns at most one commercial per two
    silences, since each one closes a group of at least two dividers. *)
Theorem search_cm_sections_bound (secs : list SilentSection) (units : list Q)
    (HU : units <> []) :
  exists cms, search_cm_sections secs units = Ok cms /\
    (2 * length cms <= length secs)%nat /\
    (forall p, In p cms -> exists c0 cl, In c0 secs /\ In cl secs /\ p = (end_sec c0, start_sec cl)).
Proof. exact (search_cm_sections_facts secs units HU). Qed.

(** The silences [0,1), [15,16), [30,31), [75,76), [90,91) with the
    default units: the dividers [0,1), [15,16) give one commercial. *)
Lemma search_cm_sections_bound_witness :
  [15; 30] <> [] /\
  search_cm_sections [r0; r1; r2; r3; r4] [15; 30] = Ok [(1, 15)] /\
  exists cms, search_cm_sections [r0; r1; r2; r3; r4] [15; 30] = Ok cms /\
    (2 * length cms <= length [r0; r1; r2; r3; r4])%nat /\
    (forall p, In p cms -> exists c0 cl, In c0 [r0; r1; r2; r3; r4] /\
                 In cl [r0; r1; r2; r3; r4] /\ p = (end_sec c0, start_sec cl)).
Proof.
  assert (H : [15; 30] <> []) by discriminate.
  split; [exact H|]. split; [vm_compute; reflexivity|].
  exact (search_cm_sections_bound [r0; r1; r2; r3; r4] [15; 30] H).
Defined.

(** ** construct_cm_sections and the caller's units *)

Definition no_monolithic (t : NominalCMStructure) : Prop :=
  has_key "monolithic_cm" (comp t) = false.

Lemma cm_step_keeps_store (cm_structures : list NominalCMStructure) (margin : Q)
    (thr : nat) (section : SilentSection) (rest : list SilentSection)
    (st : scan_state) (s s' : store) (r : res (bool * scan_state)) :
  Forall no_monolithic cm_structures -> no_monolithic (target_cm_structure st) ->
  cm_step cm_structures margin thr section rest st s = (r, s') ->
  s' = s /\ forall b st', r = Ok (b, st') -> no_monolithic (target_cm_structure st').
Proof.
  intros Hall Hnm Hstep. unfold cm_step, mbind, tmp_units in Hstep.
  rewrite Hnm in Hstep. unfold mlift in Hstep. cbv beta iota in Hstep.
  destruct (is_cm_divider_candidate section rest (durations_sec (mkUnits s)) margin)
    as [cand|e].
  2:{ injection Hstep as <- <-. split; [reflexivity|discriminate]. }
  remember (if cand then cm_divider_candidates st ++ [section]
            else cm_divider_candidates st) as cands eqn:Hc.
  destruct (candidates_could_be_cm (target_cm_structure st) thr cands).
  2:{ injection Hstep as <- <-. split; [reflexivity|]. intros b st' Hr.
      injection Hr as <- <-. exact Hnm. }
  destruct cands as [|c0 cs].
  { injection Hstep as <- <-. split; [reflexivity|discriminate]. }
  destruct (qle _ _).
  { injection Hstep as <- <-. split; [reflexivity|]. intros b st' Hr.
    injection Hr as <- <-. exact Hnm. }
  rewrite last_elem_last in Hstep. cbv beta iota in Hstep.
  destruct (_ && _).
  2:{ injection Hstep as <- <-. split; [reflexivity|]. intros b st' Hr.
      injection Hr as <- <-. exact Hnm. }
  destruct (S (structure_reference st) <? length cm_structures)%nat.
  - destruct (nth_error cm_structures (S (structure_reference st))) as [t'|] eqn:Ht'.
    + injection Hstep as <- <-. split; [reflexivity|]. intros b st' Hr.
      injection Hr as <- <-. simpl. rewrite Forall_forall in Hall.
      apply Hall. eapply nth_error_In. exact Ht'.
    + injection Hstep as <- <-. split; [reflexivity|discriminate].
  - injection Hstep as <- <-. split; [reflexivity|]. intros b st' Hr.
    injection Hr as <- <-. exact Hnm.
Qed.

Lemma cm_loop_keeps_store (cm_structures : list NominalCMStructure) (margin : Q)
    (thr : nat) (secs : list SilentSection) :
  Forall no_monolithic cm_structures ->
  forall st s, no_monolithic (target_cm_structure st) ->
  snd (cm_loop cm_structures margin thr secs st s) = s.
Proof.
  intro Hall. induction secs as [|section rest IH]; intros st s Hnm; [reflexivity|].
  simpl. unfold mbind.
  destruct (cm_step cm_structures margin thr section rest st s) as [r s1] eqn:Hstep.
  destruct (cm_step_keeps_store _ _ _ _ _ _ _ _ _ Hall Hnm Hstep) as [-> Hr].
  destruct r as [[b st1]|e]; [|reflexivity].
  specialize (Hr b st1 eq_refl). destruct b; [reflexivity|]. simpl. apply IH. exact Hr.
Qed.

(** When no supplied structure has a ["monolithic_cm"] component,
    [construct_cm_sections] only deep-copies the caller's units and
    leaves its [durations_sec] as it was, whatever the silences, the
    flag and the outcome (also when it raises). *)
Theorem construct_cm_sections_keeps_units (secs : list SilentSection)
    (cm_structures : list NominalCMStructure) (has_monolithic_cm : bool) (s : store)
    (Hall : Forall no_monolithic cm_structures) :
  snd (construct_cm_sections secs cm_structures has_monolithic_cm s) = s.
Proof.
  unfold construct_cm_sections. destruct cm_structures as [|t0 ts]; [reflexivity|].
  unfold mbind.
  pose proof (cm_loop_keeps_store (t0 :: ts) (margin_sec t0)
                (if has_monolithic_cm then 0%nat else 1%nat) secs Hall (initial_scan t0) s
                (Forall_inv Hall)) as H.
  destruct (cm_loop _ _ _ secs (initial_scan t0) s) as [[st|e] s1]; simpl in H |- *; exact H.
Qed.

(** The silences of [overshoot_loudness] with [{'cm': 30}] twice. *)
Lemma construct_cm_sections_keeps_units_witness :
  Forall no_monolithic [cm30_structure; cm30_structure] /\
  snd (construct_cm_sections [sA; sB; sC] [cm30_structure; cm30_structure] true [15; 30])
    = [15; 30].
Proof.
  assert (H : Forall no_monolithic [cm30_structure; cm30_structure])
    by (repeat constructor).
  split; [exact H|].
  exact (construct_cm_sections_keeps_units [sA; sB; sC] _ true [15; 30] H).
Defined.

(** ** generate_scenes and the pipeline without structure *)

Lemma scenes_loop_shape (cms : list (Q * Q)) (last_end d : Q) :
  forall start,
  map fst (scenes_loop start cms last_end d) = start :: map snd cms /\
  map snd (scenes_loop start cms last_end d) =
    map fst cms ++ [if qeq d 0 then last_end
                    else last (map snd cms) start + d + end_margin_sec].
Proof.
  induction cms as [|c cms IH]; intro start; simpl.
  - destruct (qeq d 0); simpl; split; reflexivity.
  - destruct (IH (snd c)) as [H1 H2]. rewrite H1, H2. split; [reflexivity|].
    f_equal. destruct (qeq d 0); [reflexivity|].
    destruct (map snd cms) as [|y ys]; [reflexivity|].
    rewrite (last_default y ys (snd c) start). reflexivity.
Qed.

Lemma generate_scenes_facts (first_start last_end : Q) (cms : list (Q * Q)) (d : Q) :
  let start := if qlt first_start starting_range_sec then first_start else 0 in
  length (generate_scenes first_start last_end cms d) = S (length cms) /\
  map fst (generate_scenes first_start last_end cms d) = start :: map snd cms /\
  map snd (generate_scenes first_start last_end cms d) =
    map fst cms ++ [if qeq d 0 then last_end
                    else last (map snd cms) start + d + end_margin_sec].
Proof.
  intro start. unfold generate_scenes. subst start.
  destruct (scenes_loop_shape cms last_end d
              (if qlt first_start starting_range_sec then first_start else 0)) as [H1 H2].
  split; [|split; assumption].
  rewrite <- (length_map fst), H1. simpl. rewrite length_map. reflexivity.
Qed.

(** [generate_scenes] returns one scene more than it is given
    commercials: the scene starts are the first start (the first
    silence's start when it is under [starting_range_sec], else [0])
    followed by the end of each commercial, and the scene ends are the
    start of each commercial followed by the final end, which is
    [last_end_sec_candidate] when [last_scene_duration] is [0] and
    otherwise the final start plus [last_scene_duration + 1]. *)
Theorem generate_scenes_shape (first_start last_end : Q) (cms : list (Q * Q)) (d : Q) :
  let start := if qlt first_start starting_range_sec then first_start else 0 in
  length (generate_scenes first_start last_end cms d) = S (length cms) /\
  map fst (generate_scenes first_start last_end cms d) = start :: map snd cms /\
  map snd (generate_scenes first_start last_end cms d) =
    map fst cms ++ [if qeq d 0 then last_end
                    else last (map snd cms) start + d + end_margin_sec].
Proof. exact (generate_scenes_facts first_start last_end cms d). Qed.

(** For a positive frame rate and a non-empty unit list, the pipeline
    without structure fails only when no silence is found (the
    [IndexError] on [silent_sections[0]]); otherwise it returns at most
    [len(silent_sections) / 2 + 1] scenes, the first starting at the
    first silence (or at [0] when that starts at [starting_range_sec] or
    later) and the last ending where the last silence ends. *)
Theorem construct_program_scenes_without_structure_ok (l : list Q) (thr : Z) (fps : Q)
    (units : list Q) (Hfps : 0 < fps) (HU : units <> []) :
  exists secs,
    extract_silent_sections l thr fps = Ok secs /\
    match secs with
    | [] => construct_program_scenes_without_structure l thr fps units = Err IndexError
    | s0 :: _ =>
        exists sc, construct_program_scenes_without_structure l thr fps units = Ok sc /\
          (2 * length sc <= length secs + 2)%nat /\
          hd_error (map fst sc) =
            Some (if qlt (start_sec s0) starting_range_sec then start_sec s0 else 0) /\
          last (map snd sc) 0 = end_sec (last secs s0)
    end.
Proof.
  assert (He : extract_silent_sections l thr fps
               = Ok (map (section_of fps) (run_frames thr 0 l 0 (-1) 0)))
    by exact (extract_loop_frames fps thr Hfps l 0 [] 0 (-1) 0 (proj1 (frame_inv_initial l))).
  set (secs := map (section_of fps) (run_frames thr 0 l 0 (-1) 0)) in He |- *.
  clearbody secs. exists secs. split; [exact He|].
  destruct (search_cm_sections_facts secs units HU) as [cms [Hs [Hb _]]].
  unfold construct_program_scenes_without_structure. unfold rbind.
  rewrite He, Hs. cbv beta iota.
  destruct secs as [|s0 ss]; [reflexivity|].
  rewrite last_elem_last. cbv beta iota.
  eexists. split; [reflexivity|].
  destruct (generate_scenes_facts (start_sec s0) (end_sec (last (s0 :: ss) s0)) cms 0)
    as [Hl [H1 H2]].
  split; [rewrite Hl; simpl in Hb |- *; lia|]. split.
  - rewrite H1. reflexivity.
  - rewrite H2. rewrite last_last. reflexivity.
Qed.

(** [retained_anchor_loudness] at one frame per second with the default
    units: five silences, one commercial [(1, 15)], two scenes. *)
Lemma construct_program_scenes_without_structure_ok_witness :
  0 < 1 /\ [15; 30] <> [] /\
  construct_program_scenes_without_structure retained_anchor_loudness 0 1 [15; 30]
    = Ok [(0, 1); (15, 91)] /\
  exists secs,
    extract_silent_sections retained_anchor_loudness 0 1 = Ok secs /\
    match secs with
    | [] => construct_program_scenes_without_structure retained_anchor_loudness 0 1 [15; 30]
            = Err IndexError
    | s0 :: _ =>
        exists sc, construct_program_scenes_without_structure retained_anchor_loudness 0 1
                     [15; 30] = Ok sc /\
          (2 * length sc <= length secs + 2)%nat /\
          hd_error (map fst sc) =
            Some (if qlt (start_sec s0) starting_range_sec then start_sec s0 else 0) /\
          last (map snd sc) 0 = end_sec (last secs s0)
    end.
Proof.
  assert (H1 : 0 < 1) by reflexivity.
  assert (H2 : [15; 30] <> []) by discriminate.
  split; [exact H1|]. split; [exact H2|]. split; [vm_compute; reflexivity|].
  exact (construct_program_scenes_without_structure_ok retained_anchor_loudness 0 1
           [15; 30] H1 H2).
Defined.
